(** * pitemp: the shared reading store, the periodic-task loop and its users

    A shallow embedding of the Go sources of lutzky/pitemp:

    - [state]   : package [internal/state] (the mutex-protected global
                  [State], [Get] and [Set]);
    - [sync]    : package [internal/sync] ([RepeatUntilCancelled]) and the
                  identical private copy [repeatUntilCancelled] of package
                  [client];
    - [client]  : package [internal/app/client] ([fetchState]);
    - [server]  : the [main] packages that poll the DHT11 ([dhtUpdater],
                  [serveJSON]);
    - [lcd], [pioled] : the display updaters;
    - [lifecycle] : the shutdown protocol of the [main] functions.

    Conventions.  A [float32] is its IEEE-754 binary32 bit pattern, a
    [time.Time] is a number of nanoseconds counted from Go's zero instant
    (January 1, year 1, 00:00 UTC), so that the zero [Time] is [0].
    Calls into libraries that reach outside the process (the sensor, the
    network, the display bus, the clock) take their result from an explicit
    environment argument. *)

From Stdlib Require Import ZArith Lia Bool.
From stdpp Require Import base relations list strings.

(** How many elements of a list satisfy a test. *)
Definition count {A} (p : A -> bool) (l : list A) : nat :=
  length (List.filter p l).

(* ===================================================================== *)
(** ** Package [internal/state] *)
(* ===================================================================== *)

Module state.

Definition float32 := Z.
Definition Time := Z.
Bind Scope Z_scope with float32 Time.

(** [type State struct { Temperature, Humidity float32; IP string;
    LastSensorUpdate time.Time }] *)
Record State := mkState {
  Temperature : float32;
  Humidity : float32;
  IP : string;
  LastSensorUpdate : Time
}.

(** The zero value of [State], the content of the package variable before
    the first [Set]. *)
Definition zero : State := mkState 0 0 "" 0.

(** [time.Time.IsZero] *)
Definition IsZero (t : Time) : bool := (t =? 0)%Z.

#[global] Instance State_eq_dec : EqDecision State.
Proof. solve_decision. Defined.

(** The assignment [state.State = *s] and the copy made by
    [return state.State] move a four-field struct; neither is atomic.  The
    model copies one field at a time. *)
Inductive field := FTemperature | FHumidity | FIP | FLastSensorUpdate.

#[global] Instance field_eq_dec : EqDecision field.
Proof. solve_decision. Defined.

Definition copy_field (f : field) (src dst : State) : State :=
  match f with
  | FTemperature =>
      mkState (Temperature src) (Humidity dst) (IP dst) (LastSensorUpdate dst)
  | FHumidity =>
      mkState (Temperature dst) (Humidity src) (IP dst) (LastSensorUpdate dst)
  | FIP =>
      mkState (Temperature dst) (Humidity dst) (IP src) (LastSensorUpdate dst)
  | FLastSensorUpdate =>
      mkState (Temperature dst) (Humidity dst) (IP dst) (LastSensorUpdate src)
  end.

Definition same_field (f : field) (a b : State) : Prop :=
  match f with
  | FTemperature => Temperature a = Temperature b
  | FHumidity => Humidity a = Humidity b
  | FIP => IP a = IP b
  | FLastSensorUpdate => LastSensorUpdate a = LastSensorUpdate b
  end.

(** [sync.RWMutex]: either one writer or any number of readers. *)
Record RWMutex := mkMu { writer : bool; readers : nat }.

(** [var state = struct { mu sync.RWMutex; State }{}] *)
Record store := mkStore { mu : RWMutex; cur : State }.

Definition init : store := mkStore (mkMu false 0) zero.

Definition unlocked (g : store) : Prop :=
  writer (mu g) = false /\ readers (mu g) = 0.

(** The atomic steps [Get] and [Set] are made of.  [buf] is the caller's
    side of the copy: [*s] for [Set], the result slot for [Get]. *)
Inductive instr :=
| Lock | Unlock | RLock | RUnlock
| Store (f : field)      (* one field of [state.State = *s] *)
| Load (f : field).      (* one field of [return state.State] *)

#[global] Instance instr_eq_dec : EqDecision instr.
Proof. solve_decision. Defined.

(** One atomic step.  [None]: the step cannot be taken in this state (the
    goroutine stays blocked in [Lock] or [RLock]; unlocking a mutex that is
    not held is a fatal runtime error and never happens below).  Go also
    keeps new readers out while a writer waits; that only removes
    interleavings, so [RLock] is allowed whenever no writer holds the
    mutex. *)
Definition exec (i : instr) (g : store) (buf : State) : option (store * State) :=
  match i with
  | Lock =>
      if writer (mu g) then None
      else match readers (mu g) with
           | O => Some (mkStore (mkMu true 0) (cur g), buf)
           | S _ => None
           end
  | Unlock =>
      if writer (mu g)
      then Some (mkStore (mkMu false (readers (mu g))) (cur g), buf)
      else None
  | RLock =>
      if writer (mu g) then None
      else Some (mkStore (mkMu false (S (readers (mu g)))) (cur g), buf)
  | RUnlock =>
      match readers (mu g) with
      | O => None
      | S n => Some (mkStore (mkMu (writer (mu g)) n) (cur g), buf)
      end
  | Store f => Some (mkStore (mu g) (copy_field f buf (cur g)), buf)
  | Load f => Some (g, copy_field f (cur g) buf)
  end.

Definition copy_out : list instr :=
  [Load FTemperature; Load FHumidity; Load FIP; Load FLastSensorUpdate].
Definition copy_in : list instr :=
  [Store FTemperature; Store FHumidity; Store FIP; Store FLastSensorUpdate].

(** [func Get() State { state.mu.RLock(); defer state.mu.RUnlock();
    return state.State }]: the result is copied before the deferred
    [RUnlock] runs. *)
Definition Get_code : list instr := RLock :: copy_out ++ [RUnlock].

(** [func Set(s *State) { state.mu.Lock(); defer state.mu.Unlock();
    state.State = *s }] *)
Definition Set_code : list instr := Lock :: copy_in ++ [Unlock].

(** A call run to its end with no other goroutine taking a step. *)
Fixpoint run (code : list instr) (g : store) (buf : State)
  : option (store * State) :=
  match code with
  | [] => Some (g, buf)
  | i :: rest =>
      match exec i g buf with
      | Some (g', buf') => run rest g' buf'
      | None => None
      end
  end.

Definition Get (g : store) : option (State * store) :=
  match run Get_code g zero with
  | Some (g', r) => Some (r, g')
  | None => None
  end.

Definition Set_ (s : State) (g : store) : option store :=
  match run Set_code g s with
  | Some (g', _) => Some g'
  | None => None
  end.

End state.

(* ===================================================================== *)
(** ** Goroutines that call [Get] and [Set] concurrently *)
(* ===================================================================== *)

(** The [main] functions start one goroutine per periodic activity and the
    HTTP server starts one per request; all of them reach the store only
    through [Get] and [Set].  Every access to the struct happens with the
    mutex held, so the program is free of data races and its executions are
    the interleavings of the atomic steps of [state.exec]. *)
Module conc.
Import state.

Inductive call := CallGet | CallSet (s : State).

Record goroutine := mkG {
  rest : list instr;   (* what is left of the call in progress *)
  buf : State;         (* [*s] of a [Set], the result slot of a [Get] *)
  todo : list call;    (* the calls it will make next *)
  got : list State     (* what its [Get] calls returned, latest first *)
}.

Record config := mkConfig { shared : store; gs : list goroutine }.

Definition enter (c : call) : list instr * State :=
  match c with
  | CallGet => (Get_code, zero)
  | CallSet s => (Set_code, s)
  end.

(** One step of one goroutine: enter the next call, or execute the next
    atomic step of the call in progress.  A [Get] hands its result to the
    caller when its deferred [RUnlock] has run. *)
Definition gstep (g : store) (t : goroutine) : option (store * goroutine) :=
  match rest t with
  | [] =>
      match todo t with
      | [] => None
      | c :: cs => Some (g, mkG (fst (enter c)) (snd (enter c)) cs (got t))
      end
  | i :: r =>
      match exec i g (buf t) with
      | None => None
      | Some (g', b') =>
          Some (g', mkG r b' (todo t)
                      (match i with RUnlock => b' :: got t | _ => got t end))
      end
  end.

Inductive step : config -> config -> Prop :=
| step_at (c : config) (k : nat) (t t' : goroutine) (g' : store) :
    gs c !! k = Some t ->
    gstep (shared c) t = Some (g', t') ->
    step c (mkConfig g' (<[k:=t']> (gs c))).

(** All goroutines idle, the store as the program starts. *)
Definition start (progs : list (list call)) : config :=
  mkConfig init (map (fun p => mkG [] zero p []) progs).

(** A schedule names the goroutine that takes each step; a step that
    cannot be taken is skipped. *)
Fixpoint schedule (sched : list nat) (c : config) : config :=
  match sched with
  | [] => c
  | k :: sched' =>
      match gs c !! k with
      | Some t =>
          match gstep (shared c) t with
          | Some (g', t') => schedule sched' (mkConfig g' (<[k:=t']> (gs c)))
          | None => schedule sched' c
          end
      | None => schedule sched' c
      end
  end.

(** Bookkeeping for the proofs: who holds the mutex. *)
Definition has (i : instr) (l : list instr) : bool :=
  existsb (fun j => bool_decide (i = j)) l.
Definition holdsW (t : goroutine) : bool :=
  has Unlock (rest t) && negb (has Lock (rest t)).
Definition holdsR (t : goroutine) : bool :=
  has RUnlock (rest t) && negb (has RLock (rest t)).

End conc.

(* ===================================================================== *)
(** ** Package [internal/sync]: the periodic-task loop *)
(* ===================================================================== *)

(** Time is an integer number of nanoseconds.  Only the action [f] and the
    wait in [select] take time; the statements around them take none. *)
Module sync.

(** A [context.Context], as far as the loop can tell: the instant at which
    [ctx.Done()] is closed, if it ever is. *)
Definition Context := option Z.

Inductive chosen := CaseDone | CaseTimer.

(** [select { case <-ctx.Done(): ...; case <-t.C: }] entered at [now] with
    a timer that fires at [fires] (at creation when the duration is not
    positive).  The statement completes at the first instant at which one
    of the channels can be received from; Go picks at random among the
    cases that are ready together, here by [coin] ([true]: [ctx.Done()]). *)
Definition select (coin : bool) (ctx : Context) (now fires : Z) : chosen * Z :=
  let tT := Z.max now fires in
  match ctx with
  | None => (CaseTimer, tT)
  | Some c =>
      let tD := Z.max now c in
      if (tD <? tT)%Z then (CaseDone, tD)
      else if (tT <? tD)%Z then (CaseTimer, tT)
      else (if coin then CaseDone else CaseTimer, tT)
  end.

Record invocation := mkInv { started : Z; returned : Z }.

Section Repeat.
Context {St : Type}.

(** The action: called at an instant in a state, it returns the new
    state and the instant at which it returns. *)
Variable f : Z -> St -> St * Z.
Variable ctx : Context.
Variable interval : Z.
Variable coins : nat -> bool.

(** [func RepeatUntilCancelled(ctx, f, interval) { for { f();
    { t := time.NewTimer(interval); defer t.Stop();
      select { case <-ctx.Done(): return; case <-t.C: } } } }]

    [k] counts the iterations made so far.  The result is the list of
    invocations of [f], the final state and the instant of the [return];
    [None] when the loop is still running after [fuel] iterations.  The
    deferred [t.Stop()] calls run at the [return] and stop timers that
    nothing waits for any more. *)
Fixpoint RepeatUntilCancelled (fuel k : nat) (now : Z) (s : St)
  : option (list invocation * St * Z) :=
  match fuel with
  | O => None
  | S fuel' =>
      let '(s1, t1) := f now s in
      match select (coins k) ctx t1 (t1 + interval)%Z with
      | (CaseDone, t2) => Some ([mkInv now t1], s1, t2)
      | (CaseTimer, t2) =>
          match RepeatUntilCancelled fuel' (S k) t2 s1 with
          | Some (tr, s2, t3) => Some (mkInv now t1 :: tr, s2, t3)
          | None => None
          end
      end
  end.

End Repeat.



End sync.

(* ===================================================================== *)
(** ** The process: store, log, metrics, and how a call can end *)
(* ===================================================================== *)

Module rt.
Import state.

(** An [error], by its message. *)
Definition error := string.

(** Arguments of the formatting functions, kept symbolic. *)
Inductive arg :=
| AStr (s : string)
| AErr (e : error)
| AFloat (x : float32)
| AChar (c : Z)
| ARound (d m : Z).          (* [d.Round(m)] of a [time.Duration] *)

(** A line written by [log.Print], [log.Printf] or [log.Println]. *)
Record logline := mkLog { format : string; args : list arg }.

(** [float64(x)] of a [float32] or of an [int64], kept symbolic. *)
Inductive float64 := OfFloat32 (x : float32) | OfInt64 (n : Z).

(** The three Prometheus gauges of the [main] packages. *)
Record gauges := mkGauges {
  tempGauge : float64;
  humidityGauge : float64;
  lastUpdateGauge : float64
}.

(** What a display driver was asked to put on its bus. *)
Inductive text :=
| Lit (s : string)
| Sprintf (fmt : string) (a : list arg)
| Format (layout : string) (t : Time)      (* [t.Local().Format(layout)] *)
| Append (t : text) (s : string).

Inductive buswrite :=
| ShowLine (line : nat) (t : text)        (* [lcd.ShowMessage] *)
| DrawFrame (lines : list text) (clock : text)   (* [dev.Draw] of a frame *)
| DrawBlank                                (* [dev.Draw] of an empty image *)
| BacklightOff
| CloseBus.

Record world := mkWorld {
  mem : store;
  logs : list logline;       (* oldest first *)
  metrics : gauges;
  bus : list buswrite        (* oldest first *)
}.

Definition boot : world :=
  mkWorld init [] (mkGauges (OfInt64 0) (OfInt64 0) (OfInt64 0)) [].

(** How a call ends: it returns, the goroutine panics (which, unrecovered,
    crashes the process), the process exits ([os.Exit], [log.Fatal]), or
    the call never gets the mutex. *)
Inductive outcome (A : Type) :=
| Returns (a : A) (w : world)
| Panics (msg : string) (w : world)
| Exits (code : Z) (w : world)
| Blocks.
Arguments Returns {A} a w.
Arguments Panics {A} msg w.
Arguments Exits {A} code w.
Arguments Blocks {A}.

Definition M (A : Type) := world -> outcome A.

Definition ret {A} (a : A) : M A := fun w => Returns a w.

Definition bind {A B} (m : M A) (k : A -> M B) : M B :=
  fun w =>
    match m w with
    | Returns a w' => k a w'
    | Panics msg w' => Panics msg w'
    | Exits c w' => Exits c w'
    | Blocks => Blocks
    end.

Declare Scope go_scope.
Delimit Scope go_scope with go.
Notation "x <- m ;; k" := (bind m (fun x => k))
  (at level 20, m at level 99, k at level 200, only parsing) : go_scope.
Notation "m ;; k" := (bind m (fun _ => k))
  (at level 100, k at level 200, right associativity, only parsing) : go_scope.
Open Scope go_scope.

Definition log_Printf (fmt : string) (a : list arg) : M unit :=
  fun w => Returns tt (mkWorld (mem w) (logs w ++ [mkLog fmt a]) (metrics w) (bus w)).

Definition log_Print (s : string) : M unit := log_Printf s [].

(** [log.Fatal(err)]: [log.Print] followed by [os.Exit(1)]. *)
Definition log_Fatal {A} (e : error) : M A :=
  fun w => Exits 1 (mkWorld (mem w) (logs w ++ [mkLog "%v" [AErr e]]) (metrics w) (bus w)).

Definition panic {A} (msg : string) : M A := fun w => Panics msg w.

Definition nil_dereference : string :=
  "runtime error: invalid memory address or nil pointer dereference".

Definition write_bus (b : buswrite) : M unit :=
  fun w => Returns tt (mkWorld (mem w) (logs w) (metrics w) (bus w ++ [b])).

Definition set_gauges (g : gauges) : M unit :=
  fun w => Returns tt (mkWorld (mem w) (logs w) g (bus w)).

(** [state.Get()] and [state.Set(&s)] called from this goroutine. *)
Definition state_Get : M State :=
  fun w =>
    match Get (mem w) with
    | Some (r, g) => Returns r (mkWorld g (logs w) (metrics w) (bus w))
    | None => Blocks
    end.

Definition state_Set (s : State) : M unit :=
  fun w =>
    match Set_ s (mem w) with
    | Some g => Returns tt (mkWorld g (logs w) (metrics w) (bus w))
    | None => Blocks
    end.

(** The loop shared by [lcd.Updater], [pioled.Updater] and the looping
    [dhtUpdater]:
    [for { body; { t := time.NewTimer(d); defer t.Stop();
           select { case <-ctx.Done(): onDone; return; case <-t.C: } } }].
    Each iteration takes the input of its body and the case its [select]
    ends with from the environment.  The result is [true] when the loop
    has returned and [false] when it is still running after the given
    iterations. *)
Fixpoint tick_loop {I} (body : I -> M unit) (onDone : M unit)
    (its : list (I * sync.chosen)) : M bool :=
  match its with
  | [] => ret false
  | (i, ch) :: its' =>
      body i ;;
      match ch with
      | sync.CaseDone => onDone ;; ret true
      | sync.CaseTimer => tick_loop body onDone its'
      end
  end.

(** The reading a goroutine of this process would [Get] now. *)
Definition reading (w : world) : State := cur (mem w).

End rt.

(* ===================================================================== *)
(** ** Package [internal/app/client] *)
(* ===================================================================== *)

Module client.
Import state rt.

Record Response := mkResponse { Body : string }.

(** The peer and the JSON decoder.  [http_Get server] is the pair
    [(resp, err)] returned by [http.Get]; [json_Decode body s] is what
    [json.NewDecoder(body).Decode(&s)] leaves in [s], and its error. *)
Record env := mkEnv {
  http_Get : string -> option Response * option error;
  json_Decode : string -> State -> State * option error
}.

(** [func fetchState(server string)] *)
Definition fetchState (e : env) (server : string) : M unit :=
  log_Print "Fetching state" ;;
  let '(resp, err) := http_Get e server in
  match err with
  | Some er => log_Printf "ERROR: http GET on %q failed: %v" [AStr server; AErr er]
  | None => ret tt
  end ;;
  let s := zero in                          (* [var s state.State] *)
  match resp with
  | None => panic nil_dereference           (* [resp.Body] of a nil [resp] *)
  | Some r =>
      let '(s', derr) := json_Decode e (Body r) s in
      match derr with
      | Some er => log_Printf "failed to decode response: %v" [AErr er]
      | None => ret tt
      end ;;
      state_Set s'
  end.

End client.

(* ===================================================================== *)
(** ** The [main] packages that poll the sensor *)
(* ===================================================================== *)

Module server.
Import state rt.

(** What [dht.ReadDHTxxWithRetry] (or [...WithContextAndRetry]) returned. *)
Record DHTxx := mkDHT {
  temperature : float32;
  humidity : float32;
  retried : Z;
  err : option error
}.

(** [time.Time.Unix]: seconds since January 1, 1970 UTC. *)
Definition Unix (t : Time) : Z := (t / 1000000000 - 62135596800)%Z.

(** One poll: [func dhtUpdater(ctx)] of the server [main], and the body of
    the loop of the other [dhtUpdater]s.  [now] and [now'] are the two
    readings of [time.Now()]. *)
Definition dhtUpdater (r : DHTxx) (now now' : Time) : M unit :=
  match err r with
  | Some e => log_Printf "Failed to read DHT11: %v" [AErr e]
  | None =>
      state_Set {| Temperature := temperature r;
                   Humidity := humidity r;
                   IP := "";                 (* not named in the literal *)
                   LastSensorUpdate := now |} ;;
      set_gauges (mkGauges (OfFloat32 (temperature r))
                           (OfFloat32 (humidity r))
                           (OfInt64 (Unix now')))
  end.

(** [func dhtUpdater(ctx)] of [main.go]: the poll in the shared loop. *)
Definition dhtUpdater_loop (its : list (DHTxx * Time * Time * sync.chosen))
  : M bool :=
  tick_loop (fun i : DHTxx * Time * Time =>
               dhtUpdater (fst (fst i)) (snd (fst i)) (snd i))
            (ret tt) its.

(** JSON documents, as far as [/api] produces them: one object whose
    members are numbers and strings. *)
Inductive jvalue :=
| JNumber (x : float32)
| JString (s : string)
| JTime (t : Time).                (* an RFC 3339 string *)

Inductive json := JObject (members : list (string * jvalue)).

(** A binary32 is finite unless its exponent bits are all ones. *)
Definition finite (x : float32) : bool :=
  negb (Z.land (Z.shiftr x 23) 255 =? 255)%Z.

(** [time.Time.MarshalJSON] refuses years outside [0, 9999]. *)
Definition marshalable (t : Time) : bool :=
  (-366 * 86400 * 1000000000 <=? t)%Z && (t <? 3652059 * 86400 * 1000000000)%Z.

(** [json.NewEncoder(w).Encode(s)] on a [State]: the fields in declaration
    order under their Go names; nothing is written when it fails. *)
Definition Encode (s : State) : json + error :=
  if negb (finite (Temperature s) && finite (Humidity s))
  then inr "json: unsupported value"
  else if negb (marshalable (LastSensorUpdate s))
  then inr "Time.MarshalJSON: year outside of range [0,9999]"
  else inl (JObject [("Temperature", JNumber (Temperature s));
                     ("Humidity", JNumber (Humidity s));
                     ("IP", JString (IP s));
                     ("LastSensorUpdate", JTime (LastSensorUpdate s))]).

Inductive body :=
| BJson (j : json)
| BText (s : string)
| BHtml (s : State).               (* [template.html] executed on [s] *)

Record HTTPResponse := mkHTTP {
  status : Z;
  content_type : string;
  payload : body
}.

(** [func serveJSON(w, r)] *)
Definition serveJSON : M HTTPResponse :=
  s <- state_Get ;;
  match Encode s with
  | inl j => ret (mkHTTP 200 "application/json" (BJson j))
  | inr e =>
      log_Printf "Error encoding JSON: %v" [AErr e] ;;
      ret (mkHTTP 500 "text/plain; charset=utf-8" (BText e))
  end.

(** [func serveHTTP(w, r)]; the template only prints fields of [s]. *)
Definition serveHTTP : M HTTPResponse :=
  s <- state_Get ;;
  ret (mkHTTP 200 "text/html; charset=utf-8" (BHtml s)).

(** What happens to the standalone server between start and shutdown, in
    the order in which the mutex serialises it. *)
Inductive op :=
| Poll (r : DHTxx) (now now' : Time)
| GetRoot
| GetApi.

Fixpoint serve (ops : list op) : M (list HTTPResponse) :=
  match ops with
  | [] => ret []
  | Poll r now now' :: ops' => dhtUpdater r now now' ;; serve ops'
  | GetRoot :: ops' =>
      h <- serveHTTP ;; hs <- serve ops' ;; ret (h :: hs)
  | GetApi :: ops' =>
      h <- serveJSON ;; hs <- serve ops' ;; ret (h :: hs)
  end.

(** The IP that a response of [/api] reports. *)
Definition reported_IP (h : HTTPResponse) : option string :=
  match payload h with
  | BJson (JObject m) =>
      match List.find (fun kv => String.eqb (fst kv) "IP") m with
      | Some (_, JString s) => Some s
      | _ => None
      end
  | _ => None
  end.

End server.

(* ===================================================================== *)
(** ** Package [lcd]: the HD44780 updater *)
(* ===================================================================== *)

Module lcd.
Import state rt.

(** [const DegreeSymbol = 0xdf] *)
Definition DegreeSymbol : Z := 223.

(** The display and the network interfaces during one tick:
    [ShowMessage t n] is the error of
    [lcd.ShowMessage(t, SHOW_LINE_n|SHOW_BLANK_PADDING)], [getIP] the
    result of the package's interface lookup. *)
Record env := mkEnv {
  ShowMessage : text -> nat -> option error;
  getIP : string -> string * option error
}.

Definition show (e : env) (t : text) (line : nat) (complaint : string) : M unit :=
  write_bus (ShowLine line t) ;;
  match ShowMessage e t line with
  | Some er => log_Printf complaint [AErr er]
  | None => ret tt
  end.

(** The body of the loop of [func Updater(ctx)]; [now] is [time.Now()]. *)
Definition Updater_body (IPIface : string) (i : env * Time) : M unit :=
  let '(e, now) := i in
  s <- state_Get ;;
  let message :=
    if IsZero (LastSensorUpdate s) then Lit "[LCD live]"
    else Sprintf "Freshness: %s"
           [ARound (now - LastSensorUpdate s) 1000000000] in
  show e message 1 "Failed to show message: %v\n" ;;
  (if String.eqb IPIface "" then ret tt
   else
     let '(ipaddr, err) := getIP e IPIface in
     let ipaddr := match err with Some er => er | None => ipaddr end in
     show e (Lit ipaddr) 2 "Failed to show IP Address: %v\n") ;;
  let dhtMessage :=
    if IsZero (LastSensorUpdate s) then Lit "[waiting for dht11]"
    else Sprintf "%.0f%cC, %.0f%% humid"
           [AFloat (Temperature s); AChar DegreeSymbol; AFloat (Humidity s)] in
  show e dhtMessage 3 "Failed to show temperature: %v\n" ;;
  show e (Format "Mon Jan 2 15:04:05" now) 4 "Failed to show time: %v\n".

(** [func cleanup()]; [off] is the error of [lcd.BacklightOff()]. *)
Definition cleanup (off : option error) : M unit :=
  write_bus BacklightOff ;;
  match off with
  | Some er => log_Printf "ERROR: Failed to turn off backlight: %v" [AErr er]
  | None => ret tt
  end ;;
  write_bus CloseBus.

(** [func Updater(ctx)] *)
Definition Updater (IPIface : string) (off : option error)
    (its : list ((env * Time) * sync.chosen)) : M bool :=
  tick_loop (Updater_body IPIface) (cleanup off) its.

(** The ticks that reached their last line. *)
Definition ticks (w : world) : nat :=
  count (fun b => match b with ShowLine 4 _ => true | _ => false end) (bus w).

End lcd.

(* ===================================================================== *)
(** ** Package [pioled]: the SSD1306 updater *)
(* ===================================================================== *)

Module pioled.
Import state rt.

(** [StaleTime = 3 * time.Minute] *)
Definition StaleTime : Z := 3 * 60 * 1000000000.

(** The package variables set by [Initialize]: whether [dev] and
    [busCloser] are non-nil. *)
Record hw := mkHw { dev : bool; busCloser : bool }.

(** The part of [func render(dst, color)] that depends on the store: the
    two text lines and the clock line. *)
Definition render (now : Time) : M (list text * text) :=
  s <- state_Get ;;
  let lines :=
    if IsZero (LastSensorUpdate s)
    then [Lit "waiting for"; Lit "sensor data"]
    else
      let l0 := Sprintf "Temp: %.0fC" [AFloat (Temperature s)] in
      let l1 := Sprintf "Humid: %.0f%%" [AFloat (Humidity s)] in
      [if (StaleTime <? now - LastSensorUpdate s)%Z
       then Append l0 " STALE!" else l0; l1] in
  ret (lines, Format "Mon Jan 2 15:04:05" now).

(** [func display()]; [draw] is the error of [dev.Draw]. *)
Definition display (h : hw) (i : option error * Time) : M unit :=
  let '(draw, now) := i in
  if negb (dev h) then log_Print "WARNING: display() called while dev=nil"
  else
    img <- render now ;;
    write_bus (DrawFrame (fst img) (snd img)) ;;
    match draw with
    | Some er => log_Fatal er
    | None => ret tt
    end.

(** [func cleanup()]; [dev.Bounds()] and [busCloser.Close()] dereference
    the package variables. *)
Definition cleanup (ClearDisplay : bool) (h : hw) (draw : option error) : M unit :=
  (if ClearDisplay then
     if dev h then
       write_bus DrawBlank ;;
       match draw with
       | Some er => log_Printf "ERROR: Failed to clear display: %v" [AErr er]
       | None => ret tt
       end
     else panic nil_dereference
   else ret tt) ;;
  if busCloser h then write_bus CloseBus else panic nil_dereference.

(** [func Updater(ctx)] *)
Definition Updater (ClearDisplay : bool) (h : hw) (clear : option error)
    (its : list ((option error * Time) * sync.chosen)) : M bool :=
  tick_loop (display h) (cleanup ClearDisplay h clear) its.

Definition frames (w : world) : nat :=
  count (fun b => match b with DrawFrame _ _ => true | _ => false end) (bus w).

End pioled.

(* ===================================================================== *)
(** ** Shutdown: [main], its goroutines and the cancellation *)
(* ===================================================================== *)

Module lifecycle.

(** How [main] ends after [cancel()]. *)
Inductive variant :=
| MainGo           (* [main.go]: [select { case <-interrupted: cancel() }]
                      is the last statement of [main] *)
| WaitGroupMain.   (* the [main]s that start every activity through
                      [waitGroupGo] and end with [wg.Wait()] *)

Inductive activity := DhtUpdater | FetchState | LcdUpdater | PioledUpdater.

(** [lcd.Updater] and [pioled.Updater] call [cleanup()] when they see
    [ctx.Done()]; [dhtUpdater] and [fetchState] just return. *)
Definition has_cleanup (a : activity) : bool :=
  match a with
  | LcdUpdater | PioledUpdater => true
  | DhtUpdater | FetchState => false
  end.

Inductive gpc :=
| InLoop           (* in its [for] loop *)
| Returned         (* saw [ctx.Done()], ran its cleanup, returned *)
| Finished.        (* the deferred [wg.Done()] has run *)

Record goroutine := mkG { act : activity; pc : gpc; cleanups : nat }.

Inductive mainpc :=
| Selecting        (* blocked in [select { case <-interrupted: ... }] *)
| Cancelled        (* [cancel()] called *)
| Exited.          (* [main] returned: the process is gone *)

Record proc := mkProc {
  interrupted : bool;    (* a signal waits in the channel (capacity 1) *)
  done : bool;           (* [ctx.Done()] is closed *)
  main : mainpc;
  wg : nat;              (* the counter of the [sync.WaitGroup] *)
  gs : list goroutine
}.

Inductive event :=
| Signal               (* SIGINT or SIGTERM arrives, or the [quitAfter]
                          goroutine sends SIGINT *)
| Main                 (* [main] takes its next step *)
| Tick (k : nat)       (* goroutine [k] runs its body and waits *)
| SeeDone (k : nat)    (* goroutine [k] receives from [ctx.Done()] *)
| WgDone (k : nat).    (* goroutine [k] runs its deferred [wg.Done()] *)

(** One step of the process; [None] when the step cannot be taken.  When
    [main] has returned the process has exited and nothing runs. *)
Definition fire (v : variant) (e : event) (p : proc) : option proc :=
  match main p with
  | Exited => None
  | _ =>
    match e with
    | Signal => Some (mkProc true (done p) (main p) (wg p) (gs p))
    | Main =>
        match main p with
        | Selecting =>
            if interrupted p
            then Some (mkProc false true Cancelled (wg p) (gs p))
            else None
        | Cancelled =>
            match v with
            | MainGo => Some (mkProc (interrupted p) (done p) Exited (wg p) (gs p))
            | WaitGroupMain =>
                match wg p with
                | O => Some (mkProc (interrupted p) (done p) Exited (wg p) (gs p))
                | S _ => None
                end
            end
        | Exited => None
        end
    | Tick k =>
        match gs p !! k with
        | Some (mkG a InLoop n) => Some p
        | _ => None
        end
    | SeeDone k =>
        match gs p !! k with
        | Some (mkG a InLoop n) =>
            if done p
            then Some (mkProc (interrupted p) (done p) (main p) (wg p)
                         (<[k := mkG a Returned
                                   (if has_cleanup a then S n else n)]> (gs p)))
            else None
        | _ => None
        end
    | WgDone k =>
        match v, gs p !! k with
        | WaitGroupMain, Some (mkG a Returned n) =>
            Some (mkProc (interrupted p) (done p) (main p) (pred (wg p))
                    (<[k := mkG a Finished n]> (gs p)))
        | _, _ => None
        end
    end
  end.

Definition step (v : variant) (p p' : proc) : Prop :=
  exists e, fire v e p = Some p'.

(** [main] blocked in its [select], every activity started. *)
Definition boot (v : variant) (acts : list activity) : proc :=
  mkProc false false Selecting
         (match v with MainGo => 0 | WaitGroupMain => length acts end)
         (map (fun a => mkG a InLoop 0) acts).

Fixpoint fire_all (v : variant) (es : list event) (p : proc) : option proc :=
  match es with
  | [] => Some p
  | e :: es' =>
      match fire v e p with
      | Some p' => fire_all v es' p'
      | None => None
      end
  end.

Definition unfinished (g : goroutine) : bool :=
  match pc g with Finished => false | _ => true end.

End lifecycle.

(* ===================================================================== *)
(** ** The readings of the scenarios *)
(* ===================================================================== *)

Module scenario.
Import state.

(** 2024-01-01T00:00:00Z *)
Definition new_year_2024 : Time := 63839664000 * 1000000000.

(** [{21.5, 40.0, T}] with [T] one minute into 2024. *)
Definition reading_B : State :=
  mkState 0x41AC0000 0x42200000 "" (new_year_2024 + 60 * 1000000000).

(** [{"Temperature":18.2,"Humidity":55.0,
      "LastSensorUpdate":"2024-01-01T00:00:00Z"}] decoded. *)
Definition reading_D : State :=
  mkState 0x4191999A 0x425C0000 "" new_year_2024.

(** The store after the poll of scenario B. *)
Definition after_B : rt.world :=
  rt.mkWorld (mkStore (mkMu false 0) reading_B) []
    (rt.mkGauges (rt.OfFloat32 0x41AC0000) (rt.OfFloat32 0x42200000)
                 (rt.OfInt64 1704067260)) [].

Definition dq : string := String (Ascii.ascii_of_nat 34) EmptyString.

(** The body of scenario D. *)
Definition body_D : string :=
  "{" +:+ dq +:+ "Temperature" +:+ dq +:+ ":18.2," +:+
  dq +:+ "Humidity" +:+ dq +:+ ":55.0," +:+
  dq +:+ "LastSensorUpdate" +:+ dq +:+ ":" +:+
  dq +:+ "2024-01-01T00:00:00Z" +:+ dq +:+ "}".

(** What the decoder does with the bodies of the scenarios: it fills [s]
    from [body_D] and rejects anything else at its first byte, before it
    has written to [s]. *)
Definition decoder (body : string) (s : State) : State * option rt.error :=
  if String.eqb body body_D then (reading_D, None)
  else (s, Some "invalid character '<' looking for beginning of value").


(** A peer behind a proxy that answers with an HTML error page. *)
Definition peer_html : client.env :=
  client.mkEnv
    (fun _ => (Some (client.mkResponse "<html>502 Bad Gateway</html>"), None))
    decoder.

(** A peer that is down: [http.Get] returns a nil response and an error. *)
Definition peer_down : client.env :=
  client.mkEnv (fun _ => (None, Some "dial tcp: connect: connection refused"))
               decoder.

Definition api_url : string := "http://pitemp:8080/api".

(** An LCD whose bus rejects every write. *)
Definition lcd_broken : lcd.env :=
  lcd.mkEnv (fun _ _ => Some "write /dev/i2c-1: remote I/O error")
            (fun _ => ("192.168.1.7/24", None)).

(** An action that takes one nanosecond and changes nothing. *)
Definition one_ns : Z -> unit -> unit * Z := fun t s => (s, (t + 1)%Z).


(** The activities of the combined [main]: sensor, LCD and PiOLED. *)
Definition combined : list lifecycle.activity :=
  [lifecycle.DhtUpdater; lifecycle.LcdUpdater; lifecycle.PioledUpdater].

(** A poller that stores the readings of scenarios B and D while a
    display reads twice. *)
Definition writer_and_reader : list (list conc.call) :=
  [[conc.CallSet reading_B; conc.CallSet reading_D];
   [conc.CallGet; conc.CallGet]].

(** The reader starts first and the writer has to wait for it; then the
    writer stores [reading_B]; the second [Get] begins before the second
    [Set] and makes it wait. *)
Definition interleaving : list nat :=
  [1; 1; 1; 1; 0; 0; 1; 1; 1; 0; 0; 0; 0; 0; 0; 1; 1; 1; 0; 0; 1; 1; 1; 1]%nat.

(** [select] choices: the timer [n] times, then [ctx.Done()]. *)
Definition timer_first (n : nat) : nat -> bool := fun k => (n <=? k)%nat.

End scenario.

(* ===================================================================== *)
(** ** Invariants used in the proofs *)
(* ===================================================================== *)

Module inv.
Import state rt.

(** No call is in progress and no poll has named an IP. *)
Definition quiet (w : world) : Prop :=
  unlocked (mem w) /\ IP (reading w) = "".

(** What a response of the standalone server says about the IP. *)
Definition no_IP (h : server.HTTPResponse) : Prop :=
  match server.payload h with
  | server.BJson _ => server.reported_IP h = Some ""
  | server.BHtml s => IP s = ""
  | server.BText _ => server.status h = 500%Z
  end.

(** A goroutine has run its cleanup once it has seen the cancellation,
    if it has one, and not before. *)
Definition cleaned (g : lifecycle.goroutine) : Prop :=
  match lifecycle.pc g with
  | lifecycle.InLoop => lifecycle.cleanups g = 0
  | lifecycle.Returned | lifecycle.Finished =>
      lifecycle.cleanups g =
        if lifecycle.has_cleanup (lifecycle.act g) then 1 else 0
  end.

(** The [WaitGroup] counts the goroutines whose [wg.Done()] is to come. *)
Definition counted (p : lifecycle.proc) : Prop :=
  lifecycle.wg p = count lifecycle.unfinished (lifecycle.gs p).

(** The arguments of the [Set] calls of a program. *)
Definition set_args (progs : list (list conc.call)) : list State :=
  flat_map
    (flat_map (fun c => match c with conc.CallSet s => [s] | conc.CallGet => [] end))
    progs.

(** A value some [Set] was called with, or the zero value. *)
Definition known (sets : list State) (s : State) : Prop :=
  s = zero \/ In s sets.

(** What can be left of a call in progress. *)
Fixpoint tails {A} (l : list A) : list (list A) :=
  match l with
  | [] => [[]]
  | x :: l' => l :: tails l'
  end.

Definition phases : list (list instr) := tails Get_code ++ tails Set_code.

(** One goroutine, against the stored value [c]: a writer has stored the
    fields it is past, a reader has loaded the fields it is past. *)
Record thread_ok (sets : list State) (c : State) (t : conc.goroutine) : Prop :=
  mkThreadOk {
    ok_rest : In (conc.rest t) phases;
    ok_todo : forall s, In (conc.CallSet s) (conc.todo t) -> In s sets;
    ok_got : forall v, In v (conc.got t) -> known sets v;
    ok_arg : conc.has Lock (conc.rest t) = true -> In (conc.buf t) sets;
    ok_writer : conc.holdsW t = true ->
      In (conc.buf t) sets /\
      forall f, conc.has (Store f) (conc.rest t) = false ->
                same_field f (conc.buf t) c;
    ok_reader : conc.holdsR t = true ->
      forall f, conc.has (Load f) (conc.rest t) = false ->
                same_field f (conc.buf t) c
  }.

(** The mutex counts its holders, a writer excludes readers, and with no
    writer the stored value is whole. *)
Record conc_inv (sets : list State) (c : conc.config) : Prop := mkConcInv {
  inv_writer :
    count conc.holdsW (conc.gs c) = if writer (mu (conc.shared c)) then 1 else 0;
  inv_readers : count conc.holdsR (conc.gs c) = readers (mu (conc.shared c));
  inv_excl : writer (mu (conc.shared c)) = true -> readers (mu (conc.shared c)) = 0;
  inv_whole : writer (mu (conc.shared c)) = false ->
              known sets (cur (conc.shared c));
  inv_threads : forall k t, conc.gs c !! k = Some t ->
                thread_ok sets (cur (conc.shared c)) t
}.

(** [main] returns from [wg.Wait()] only when the counter is zero. *)
Definition waited (p : lifecycle.proc) : Prop :=
  lifecycle.main p = lifecycle.Exited -> lifecycle.wg p = 0.

(** The goroutine is through: cleanup done if it has one, [wg.Done()]
    called. *)
Definition through (g : lifecycle.goroutine) : Prop :=
  lifecycle.pc g = lifecycle.Finished /\
  lifecycle.cleanups g =
    if lifecycle.has_cleanup (lifecycle.act g) then 1 else 0.

End inv.

(* ===================================================================== *)
(** ** More of the sources *)
(* ===================================================================== *)

(** Package [lcd]: [func getIP(iface string) (string, error)]. *)
Module lcd_net.
Import rt.

(** A [net.Interface] as [getIP] uses it: its [Name] and what [Addrs()]
    returns (the addresses already as [addr.String()]). *)
Record Interface := mkIf {
  Name : string;
  Addrs : list string * option error
}.

(** The three [fmt.Errorf] calls of [getIP], by call site. *)
Inductive ip_error :=
| FailedInterfaces (e : error)          (* "failed to get interfaces: %w" *)
| FailedAddrs (iface : string) (e : error)  (* "failed to get addrs for %q: %w" *)
| NotFound (iface : string).            (* "interface %q not found" *)

(** [for _, i := range ifaces { ... }] and the final [return]. *)
Fixpoint scan (iface : string) (ifaces : list Interface)
  : string * option ip_error :=
  match ifaces with
  | [] => ("", Some (NotFound iface))
  | i :: rest =>
      if negb (String.eqb (Name i) iface) then scan iface rest   (* continue *)
      else
        match Addrs i with
        | (_, Some e) => ("", Some (FailedAddrs iface e))
        | (a :: _, None) => (a, None)       (* the first address *)
        | ([], None) => scan iface rest     (* no address: next interface *)
        end
  end.

(** [Interfaces] is the result of [net.Interfaces()]. *)
Definition getIP (Interfaces : list Interface * option error) (iface : string)
  : string * option ip_error :=
  match snd Interfaces with
  | Some e => ("", Some (FailedInterfaces e))
  | None => scan iface (fst Interfaces)
  end.

End lcd_net.

(** Package [pioled]: [func Initialize() error]. *)
Module pioled_init.
Import state rt.

(** The three wrapped errors of [Initialize], by call site. *)
Inductive init_error :=
| HostInit (e : error)      (* "host init failed: %w" *)
| OpenI2C (e : error)       (* the error of [i2creg.Open], wrapped *)
| NewSSD1306 (e : error).   (* "failed to initialize ssd1306: %w" *)

(** The errors of [host.Init()], [i2creg.Open("")] and
    [ssd1306.NewI2C(busCloser, &opts)]. *)
Record env := mkEnv {
  host_Init : option error;
  i2creg_Open : option error;
  ssd1306_NewI2C : option error
}.

(** [func Initialize() error]: the package variables it leaves and its
    result.  [busCloser, err = i2creg.Open("")] and
    [dev, err = ssd1306.NewI2C(...)] assign the variable also when they
    fail, then with nil. *)
Definition Initialize (e : env) (h : pioled.hw) : pioled.hw * option init_error :=
  match host_Init e with
  | Some er => (h, Some (HostInit er))
  | None =>
      match i2creg_Open e with
      | Some er => (pioled.mkHw (pioled.dev h) false, Some (OpenI2C er))
      | None =>
          match ssd1306_NewI2C e with
          | Some er => (pioled.mkHw false true, Some (NewSSD1306 er))
          | None => (pioled.mkHw true true, None)
          end
      end
  end.

(** The package variables before [Initialize]: both nil. *)
Definition unset : pioled.hw := pioled.mkHw false false.

End pioled_init.

(** Further definitions used to state properties. *)
Module more.
Import state rt.

(** [Set] called with each element in turn. *)
Fixpoint Set_all (l : list State) (g : store) : option store :=
  match l with
  | [] => Some g
  | s :: l' =>
      match Set_ s g with
      | Some g' => Set_all l' g'
      | None => None
      end
  end.

(** [sync.RWMutex] prefers writers: once a goroutine has called [Lock],
    calls of [RLock] block until that writer has had the mutex, even while
    only readers hold it.  [conc.step] lets such readers in; [go_step] is
    [conc.step] without those steps.  A goroutine counts as waiting in
    [Lock] from the moment it has entered [Set], which only takes steps
    away. *)
Definition in_Lock (t : conc.goroutine) : bool :=
  match conc.rest t with
  | Lock :: _ => true
  | _ => false
  end.

Definition in_RLock (t : conc.goroutine) : bool :=
  match conc.rest t with
  | RLock :: _ => true
  | _ => false
  end.

Inductive go_step : conc.config -> conc.config -> Prop :=
| go_step_at (c : conc.config) (k : nat) (t t' : conc.goroutine) (g' : store) :
    conc.gs c !! k = Some t ->
    conc.gstep (conc.shared c) t = Some (g', t') ->
    (in_RLock t = true -> count in_Lock (conc.gs c) = 0) ->
    go_step c (conc.mkConfig g' (<[k:=t']> (conc.gs c))).

(** The iterations a loop gets to: up to the first one whose [select]
    ends with [ctx.Done()]. *)
Fixpoint executed {I} (its : list (I * sync.chosen)) : list I :=
  match its with
  | [] => []
  | (i, sync.CaseDone) :: _ => [i]
  | (i, sync.CaseTimer) :: its' => i :: executed its'
  end.

Fixpoint cancelled {I} (its : list (I * sync.chosen)) : bool :=
  match its with
  | [] => false
  | (_, sync.CaseDone) :: _ => true
  | (_, sync.CaseTimer) :: its' => cancelled its'
  end.

(** What a series of polls leaves in the store and in the gauges: the
    values of the last poll without an error. *)
Fixpoint polled (ps : list (server.DHTxx * Time * Time)) (s : State) : State :=
  match ps with
  | [] => s
  | (r, now, _) :: ps' =>
      polled ps' (match server.err r with
                  | Some _ => s
                  | None => mkState (server.temperature r) (server.humidity r)
                                    "" now
                  end)
  end.

Fixpoint gauged (ps : list (server.DHTxx * Time * Time)) (g : gauges) : gauges :=
  match ps with
  | [] => g
  | (r, _, now') :: ps' =>
      gauged ps' (match server.err r with
                  | Some _ => g
                  | None => mkGauges (OfFloat32 (server.temperature r))
                                     (OfFloat32 (server.humidity r))
                                     (OfInt64 (server.Unix now'))
                  end)
  end.

(** The polls among the operations of the server. *)
Fixpoint poll_inputs (ops : list server.op)
  : list (server.DHTxx * Time * Time) :=
  match ops with
  | [] => []
  | server.Poll r now now' :: ops' => (r, now, now') :: poll_inputs ops'
  | _ :: ops' => poll_inputs ops'
  end.

(** How often the bus was told to switch the backlight off, and how
    often it was closed. *)
Definition backlight_offs (w : world) : nat :=
  count (fun b => match b with BacklightOff => true | _ => false end) (bus w).
Definition closes (w : world) : nat :=
  count (fun b => match b with CloseBus => true | _ => false end) (bus w).

Definition is_show (b : buswrite) : bool :=
  match b with ShowLine _ _ => true | _ => false end.

(** The warning of [pioled.display] without a device. *)
Definition no_device : logline :=
  mkLog "WARNING: display() called while dev=nil" [].


(** The two value gauges show the stored reading. *)
Definition gauges_agree (w : world) : Prop :=
  tempGauge (metrics w) = OfFloat32 (Temperature (reading w)) /\
  humidityGauge (metrics w) = OfFloat32 (Humidity (reading w)).

End more.

(* ===================================================================== *)
(** ** The server, statement by statement *)
(* ===================================================================== *)

(** [server.serve] runs a poll as a whole.  In the process the requests
    are answered on goroutines of the HTTP server, and one can fall
    between any two statements of [dhtUpdater].  Here the poll is taken
    one statement at a time.  [state.Set] and the [state.Get] of a handler
    exclude each other through the mutex, and a Prometheus gauge is set
    and read atomically, so each statement is one step, and so is each
    request: a handler touches what is shared only in its one
    [state.Get], [promhttp.Handler()] only in reading the gauges. *)
Module live.
Import state rt server.

(** The statements of [dhtUpdater] once the sensor has answered. *)
Inductive stmt :=
| LogFailure (e : error)           (* [log.Printf("Failed to read DHT11: %v", err)] *)
| StateSet (s : State)             (* [state.Set(&state.State{...})] *)
| TempGaugeSet (x : float32)       (* [tempGauge.Set(float64(temperature))] *)
| HumidityGaugeSet (x : float32)   (* [humidityGauge.Set(float64(humidity))] *)
| LastUpdateGaugeSet (n : Z).      (* [lastUpdateGauge.Set(float64(time.Now().Unix()))] *)

Definition statements (r : DHTxx) (now now' : Time) : list stmt :=
  match err r with
  | Some e => [LogFailure e]
  | None =>
      [StateSet {| Temperature := temperature r;
                   Humidity := humidity r;
                   IP := "";
                   LastSensorUpdate := now |};
       TempGaugeSet (temperature r);
       HumidityGaugeSet (humidity r);
       LastUpdateGaugeSet (Unix now')]
  end.

Definition exec (s : stmt) : M unit :=
  match s with
  | LogFailure e => log_Printf "Failed to read DHT11: %v" [AErr e]
  | StateSet s => state_Set s
  | TempGaugeSet x =>
      fun w => set_gauges (mkGauges (OfFloat32 x) (humidityGauge (metrics w))
                                    (lastUpdateGauge (metrics w))) w
  | HumidityGaugeSet x =>
      fun w => set_gauges (mkGauges (tempGauge (metrics w)) (OfFloat32 x)
                                    (lastUpdateGauge (metrics w))) w
  | LastUpdateGaugeSet n =>
      fun w => set_gauges (mkGauges (tempGauge (metrics w))
                                    (humidityGauge (metrics w)) (OfInt64 n)) w
  end.

(** [http.HandleFunc("/", serveHTTP)], [http.HandleFunc("/api", serveJSON)]
    and [http.Handle("/metrics", promhttp.Handler())]. *)
Inductive request := ReqRoot | ReqApi | ReqMetrics.

(** What a request is answered with; for [/metrics], the values of the
    registered gauges. *)
Inductive answer :=
| Page (h : HTTPResponse)
| Scrape (g : gauges).

Definition handle (q : request) : M answer :=
  match q with
  | ReqRoot => h <- serveHTTP ;; ret (Page h)
  | ReqApi => h <- serveJSON ;; ret (Page h)
  | ReqMetrics => fun w => Returns (Scrape (metrics w)) w
  end.

Inductive step :=
| Stmt (s : stmt)          (* the poller executes its next statement *)
| Req (q : request).       (* a request is answered *)

(** The steps in the order in which they happen. *)
Fixpoint run (l : list step) : M (list answer) :=
  match l with
  | [] => ret []
  | Stmt s :: l' => exec s ;; run l'
  | Req q :: l' => a <- handle q ;; ans <- run l' ;; ret (a :: ans)
  end.

(** The statements of the poller among the steps, and the requests. *)
Fixpoint poller (l : list step) : list stmt :=
  match l with
  | [] => []
  | Stmt s :: l' => s :: poller l'
  | Req _ :: l' => poller l'
  end.

Fixpoint requests (l : list step) : list request :=
  match l with
  | [] => []
  | Stmt _ :: l' => requests l'
  | Req q :: l' => q :: requests l'
  end.

(** The statements of a series of whole polls. *)
Fixpoint polls (ps : list (DHTxx * Time * Time)) : list stmt :=
  match ps with
  | [] => []
  | (r, now, now') :: ps' => statements r now now' ++ polls ps'
  end.

(** What a statement does to the stored reading and to the gauges. *)
Definition effect (sg : State * gauges) (s : stmt) : State * gauges :=
  match s with
  | LogFailure _ => sg
  | StateSet s' => (s', snd sg)
  | TempGaugeSet x =>
      (fst sg, mkGauges (OfFloat32 x) (humidityGauge (snd sg))
                        (lastUpdateGauge (snd sg)))
  | HumidityGaugeSet x =>
      (fst sg, mkGauges (tempGauge (snd sg)) (OfFloat32 x)
                        (lastUpdateGauge (snd sg)))
  | LastUpdateGaugeSet n =>
      (fst sg, mkGauges (tempGauge (snd sg)) (humidityGauge (snd sg))
                        (OfInt64 n))
  end.

End live.

(* ===================================================================== *)
(** ** Shutdown when an activity can end the process *)
(* ===================================================================== *)

(** [lifecycle.fire] follows activities that run until they are
    cancelled.  An activity can also end the process from inside:
    [fetchState] panics on a nil response, [pioled.display] calls
    [log.Fatal] when a frame cannot be drawn, [pioled.cleanup] panics
    without a device.  This is the [main] that ends with [wg.Wait()] with
    those steps added.  [waitGroupGo] starts its goroutine as
    [go func() { defer wg.Done(); f() }()]: when [f] panics the deferred
    [wg.Done()] still runs, and only then does the runtime end the
    process, so that [main] can return from [wg.Wait()] in between. *)
Module crash.
Import lifecycle.

Inductive event :=
| Run (e : lifecycle.event)   (* a step of [lifecycle.fire] *)
| Panic (k : nat)       (* goroutine [k] panics in its body or in its
                           cleanup; its deferred [wg.Done()] runs *)
| Fatal (k : nat)       (* goroutine [k] calls [log.Fatal]: [os.Exit(1)] *)
| Die.                  (* the runtime ends the process after a panic *)

Record proc := mkProc {
  base : lifecycle.proc;
  panicked : list nat;    (* the goroutines that have panicked *)
  status : option Z       (* the exit status, once [os.Exit] or the runtime
                             has ended the process *)
}.

(** One step; [None] when it cannot be taken.  Nothing runs once the
    process has been ended or [main] has returned. *)
Definition fire (e : event) (x : proc) : option proc :=
  match status x, main (base x) with
  | Some _, _ => None
  | None, Exited => None
  | None, _ =>
    match e with
    | Run e' =>
        match lifecycle.fire WaitGroupMain e' (base x) with
        | Some p' => Some (mkProc p' (panicked x) None)
        | None => None
        end
    | Panic k =>
        match gs (base x) !! k with
        | Some (mkG a InLoop n) =>
            Some (mkProc
                    (lifecycle.mkProc (interrupted (base x)) (done (base x))
                       (main (base x)) (pred (wg (base x)))
                       (<[k := mkG a Finished n]> (gs (base x))))
                    (k :: panicked x) None)
        | _ => None
        end
    | Fatal k =>
        match gs (base x) !! k with
        | Some (mkG a InLoop n) => Some (mkProc (base x) (panicked x) (Some 1%Z))
        | _ => None
        end
    | Die =>
        match panicked x with
        | [] => None
        | _ :: _ => Some (mkProc (base x) (panicked x) (Some 2%Z))
        end
    end
  end.

Definition boot (acts : list activity) : proc :=
  mkProc (lifecycle.boot WaitGroupMain acts) [] None.

Fixpoint fire_all (es : list event) (x : proc) : option proc :=
  match es with
  | [] => Some x
  | e :: es' =>
      match fire e x with
      | Some x' => fire_all es' x'
      | None => None
      end
  end.

(** What holds in every state the process reaches. *)
Record sound (acts : list activity) (x : proc) : Prop := mkSound {
  sound_counted : wg (base x) = count unfinished (gs (base x));
  sound_waited : main (base x) = Exited -> wg (base x) = 0 /\ status x = None;
  sound_acts : map act (gs (base x)) = acts;
  sound_gs : forall k g, gs (base x) !! k = Some g ->
    (In k (panicked x) -> pc g = Finished /\ cleanups g = 0) /\
    (~ In k (panicked x) ->
       match pc g with
       | InLoop => cleanups g = 0
       | Returned | Finished =>
           cleanups g = if has_cleanup (act g) then 1 else 0
       end)
}.

End crash.
(* ===================================================================== *)
(** * Properties *)
(* ===================================================================== *)

(** ** The store, one goroutine at a time *)

Section StoreFacts.
Import state.

Lemma Set_unlocked (s : State) (g : store) :
  unlocked g -> Set_ s g = Some (mkStore (mkMu false 0) s).
Proof.
  destruct g as [[w n] c], s as [t h i l]; unfold unlocked; simpl.
  intros [-> ->]. reflexivity.
Qed.

Lemma Set_returns (s : State) (g g' : store) :
  Set_ s g = Some g' -> unlocked g /\ g' = mkStore (mkMu false 0) s.
Proof.
  destruct g as [[[] [|n]] c], s as [t h i l]; unfold unlocked, Set_; simpl;
    try discriminate.
  intros [= <-]. auto.
Qed.

Lemma Get_no_writer (g : store) :
  writer (mu g) = false -> Get g = Some (cur g, g).
Proof.
  destruct g as [[w n] [t h i l]]; simpl. intros ->. reflexivity.
Qed.




End StoreFacts.

(** ** The store seen from the process *)

Section WorldFacts.
Import state rt.

Lemma state_Set_unlocked (s : State) (w : world) :
  unlocked (mem w) ->
  state_Set s w =
    Returns tt (mkWorld (mkStore (mkMu false 0) s) (logs w) (metrics w) (bus w)).
Proof. intros H. unfold state_Set. rewrite (Set_unlocked s _ H). reflexivity. Qed.

Lemma state_Get_unlocked (w : world) :
  unlocked (mem w) -> state_Get w = Returns (reading w) w.
Proof.
  intros [H _]. unfold state_Get. rewrite (Get_no_writer _ H).
  destruct w; reflexivity.
Qed.

End WorldFacts.

(** ** The loop shared by the periodic goroutines *)

Section LoopFacts.
Import rt.
Context {I : Type} (body : I -> M unit) (onDone : M unit).

(** A loop that is still running after some iterations goes on with the
    next ones from the state it has reached. *)
Lemma tick_loop_app (its rest : list (I * sync.chosen)) (w w1 : world) :
  tick_loop body onDone its w = Returns false w1 ->
  tick_loop body onDone (its ++ rest) w = tick_loop body onDone rest w1.
Proof.
  revert w. induction its as [|[i ch] its IH]; intros w; simpl.
  - unfold ret. intros [= ->]. reflexivity.
  - unfold bind. destruct (body i w) as [[] w'| | |]; try discriminate.
    destruct ch.
    + destruct (onDone w'); discriminate.
    + apply IH.
Qed.

End LoopFacts.

(** ** The sensor poller *)

Section PollFacts.
Import state rt server.

Lemma dhtUpdater_failure (r : DHTxx) (now now' : Time) (e : error) (w : world) :
  err r = Some e ->
  dhtUpdater r now now' w =
    Returns tt (mkWorld (mem w)
                  (logs w ++ [mkLog "Failed to read DHT11: %v" [AErr e]])
                  (metrics w) (bus w)).
Proof. intros H. unfold dhtUpdater. rewrite H. reflexivity. Qed.

Lemma dhtUpdater_success (r : DHTxx) (now now' : Time) (w : world) :
  err r = None -> unlocked (mem w) ->
  dhtUpdater r now now' w =
    Returns tt
      (mkWorld (mkStore (mkMu false 0)
                  (mkState (temperature r) (humidity r) "" now))
               (logs w)
               (mkGauges (OfFloat32 (temperature r)) (OfFloat32 (humidity r))
                         (OfInt64 (Unix now')))
               (bus w)).
Proof.
  intros H Hu. unfold dhtUpdater. rewrite H. unfold bind.
  rewrite (state_Set_unlocked _ _ Hu). reflexivity.
Qed.

(** C4.  A poll in which the sensor driver returns an error logs it and
    does not write the store: the reading (and the whole store) after the
    tick is the one before it, so a [Get] returns what it would have
    returned before.  The same holds for a failing iteration of the
    looping [dhtUpdater]: the loop is still running and the store is the
    one the previous iterations left. *)
Theorem failed_poll_keeps_reading
    (r : DHTxx) (now now' : Time) (e : error) (w : world) :
  err r = Some e ->
  (exists w', dhtUpdater r now now' w = Returns tt w' /\
     mem w' = mem w /\ reading w' = reading w /\ Get (mem w') = Get (mem w)) /\
  (forall its w0,
     dhtUpdater_loop its w0 = Returns false w ->
     exists w',
       dhtUpdater_loop (its ++ [(r, now, now', sync.CaseTimer)]) w0 =
         Returns false w' /\
       mem w' = mem w /\ reading w' = reading w /\ Get (mem w') = Get (mem w)).
Proof.
  intros H. split.
  - eexists. split; [apply dhtUpdater_failure, H|]. simpl. auto.
  - intros its w0 Hl. unfold dhtUpdater_loop in *.
    rewrite (tick_loop_app _ _ _ _ _ _ Hl). simpl. unfold bind.
    rewrite (dhtUpdater_failure _ _ _ _ _ H). eexists. split; [reflexivity|].
    simpl. auto.
Qed.

Lemma failed_poll_keeps_reading_witness :
  exists w',
    dhtUpdater (mkDHT (-1) (-1) 10 (Some "failed to read DHT11")) 0 0
               scenario.after_B = Returns tt w' /\
    reading w' = scenario.reading_B.
Proof.
  destruct (failed_poll_keeps_reading
              (mkDHT (-1) (-1) 10 (Some "failed to read DHT11")) 0 0
              "failed to read DHT11" scenario.after_B eq_refl)
    as [[w' (H1 & _ & H2 & _)] _].
  exists w'. split; [exact H1 | exact H2].
Defined.

End PollFacts.

(** ** The remote fetcher *)

Section FetchFacts.
Import state rt client.

(** What [fetchState] does once [http.Get] has returned a response:
    whatever the two errors are, it stores what the decoder left in [s]. *)
Lemma fetchState_with_response
    (e : env) (server : string) (w : world)
    (r : Response) (gerr derr : option error) (s : State) :
  http_Get e server = (Some r, gerr) ->
  json_Decode e (Body r) zero = (s, derr) ->
  unlocked (mem w) ->
  fetchState e server w =
    Returns tt
      (mkWorld (mkStore (mkMu false 0) s)
         (logs w ++ [mkLog "Fetching state" []]
            ++ match gerr with
               | Some er => [mkLog "ERROR: http GET on %q failed: %v"
                               [AStr server; AErr er]]
               | None => []
               end
            ++ match derr with
               | Some er => [mkLog "failed to decode response: %v" [AErr er]]
               | None => []
               end)
         (metrics w) (bus w)).
Proof.
  intros Hg Hd Hu. unfold fetchState. rewrite Hg, Hd.
  unfold bind, log_Print, log_Printf, ret.
  destruct gerr, derr; simpl; rewrite state_Set_unlocked by exact Hu; simpl;
    rewrite <- ?app_assoc; reflexivity.
Qed.

(** With no response, [resp.Body] dereferences nil. *)
Lemma fetchState_without_response
    (e : env) (server : string) (w : world) (er : error) :
  http_Get e server = (None, Some er) ->
  fetchState e server w =
    Panics nil_dereference
      (mkWorld (mem w)
         (logs w ++ [mkLog "Fetching state" []]
            ++ [mkLog "ERROR: http GET on %q failed: %v" [AStr server; AErr er]])
         (metrics w) (bus w)).
Proof.
  intros Hg. unfold fetchState. rewrite Hg.
  unfold bind, log_Print, log_Printf, panic. simpl.
  rewrite <- app_assoc. reflexivity.
Qed.

(** C3, at the failing inputs.  With the reading of scenario B in the
    store: a peer whose body does not decode makes the tick log the
    failure and then overwrite the store with the zero [State]; a peer
    that cannot be reached makes the tick log the failure and then panic
    on the nil response. *)
Theorem fetchState_failures_not_skipped :
  (exists w',
     fetchState scenario.peer_html scenario.api_url scenario.after_B =
       Returns tt w' /\
     reading w' = zero /\ reading w' <> reading scenario.after_B) /\
  (exists w',
     fetchState scenario.peer_down scenario.api_url scenario.after_B =
       Panics nil_dereference w').
Proof.
  split.
  - eexists. split.
    + apply (fetchState_with_response scenario.peer_html scenario.api_url
               scenario.after_B _ None _ zero eq_refl eq_refl (conj eq_refl eq_refl)).
    + split; [reflexivity|]. vm_compute. discriminate.
  - eexists.
    apply (fetchState_without_response scenario.peer_down scenario.api_url
             scenario.after_B _ eq_refl).
Qed.



End FetchFacts.

(** ** The standalone server *)

Section ServerFacts.
Import state rt server inv.

Lemma dhtUpdater_quiet (r : DHTxx) (now now' : Time) (w : world) :
  quiet w -> exists w', dhtUpdater r now now' w = Returns tt w' /\ quiet w'.
Proof.
  intros [Hu Hip]. destruct (err r) as [e|] eqn:He.
  - eexists. split; [apply dhtUpdater_failure, He|]. split; [exact Hu | exact Hip].
  - eexists. split; [apply dhtUpdater_success; assumption|].
    split; [split|]; reflexivity.
Qed.

(** [Encode] puts the [IP] of the [State] in the document. *)
Lemma Encode_IP (s : State) (j : json) :
  Encode s = inl j ->
  reported_IP (mkHTTP 200 "application/json" (BJson j)) = Some (IP s).
Proof.
  unfold Encode. repeat (case_match; try discriminate). intros [= <-]. reflexivity.
Qed.

Lemma serveJSON_quiet (w : world) :
  quiet w -> exists h w', serveJSON w = Returns h w' /\ quiet w' /\ no_IP h.
Proof.
  intros [Hu Hip]. unfold serveJSON, bind. rewrite (state_Get_unlocked _ Hu).
  destruct (Encode (reading w)) as [j|e] eqn:He.
  - do 2 eexists. split; [reflexivity|]. split; [split; assumption|].
    unfold no_IP. simpl. rewrite <- Hip. apply Encode_IP, He.
  - do 2 eexists. split; [reflexivity|]. split; [split; assumption|]. reflexivity.
Qed.

Lemma serveHTTP_quiet (w : world) :
  quiet w -> exists h, serveHTTP w = Returns h w /\ no_IP h.
Proof.
  intros [Hu Hip]. unfold serveHTTP, bind. rewrite (state_Get_unlocked _ Hu).
  eexists. split; [reflexivity|]. exact Hip.
Qed.

Lemma serve_quiet (ops : list op) (w : world) :
  quiet w ->
  exists hs w', serve ops w = Returns hs w' /\ quiet w' /\ Forall no_IP hs.
Proof.
  revert w. induction ops as [|o ops IH]; intros w Hq; simpl.
  - exists [], w. auto.
  - destruct o as [r now now'| |]; unfold bind.
    + destruct (dhtUpdater_quiet r now now' w Hq) as (w1 & -> & Hq1).
      apply IH, Hq1.
    + destruct (serveHTTP_quiet w Hq) as (h & -> & Hh).
      destruct (IH w Hq) as (hs & w' & -> & Hq' & Hhs).
      exists (h :: hs), w'. auto.
    + destruct (serveJSON_quiet w Hq) as (h & w1 & -> & Hq1 & Hh).
      destruct (IH w1 Hq1) as (hs & w' & -> & Hq' & Hhs).
      exists (h :: hs), w'. auto.
Qed.

(** C10.  In the standalone server a successful poll stores a [State]
    built from the temperature, the humidity and the clock, with the [IP]
    left at its zero value; whatever polls and requests the server goes
    through since its start, the stored [IP] is the empty string, every
    JSON document served by [/api] reports the empty [IP], and so does
    the page served by [/]. *)
Theorem standalone_IP_empty :
  (forall r now now' w, err r = None -> unlocked (mem w) ->
     exists w', dhtUpdater r now now' w = Returns tt w' /\
       reading w' = mkState (temperature r) (humidity r) "" now) /\
  (forall ops, exists hs w',
     serve ops boot = Returns hs w' /\
     IP (reading w') = "" /\
     Forall no_IP hs /\
     Forall (fun h => forall ip, reported_IP h = Some ip -> ip = "") hs).
Proof.
  split.
  - intros r now now' w He Hu. eexists.
    split; [apply dhtUpdater_success; assumption | reflexivity].
  - intros ops.
    destruct (serve_quiet ops boot) as (hs & w' & H & [_ Hip] & Hhs).
    { split; [split|]; reflexivity. }
    exists hs, w'. repeat split; try assumption.
    eapply Forall_impl; [exact Hhs|]. intros h Hh ip Hr.
    unfold no_IP in Hh. unfold reported_IP in *.
    destruct (payload h); [congruence | discriminate | discriminate].
Qed.

End ServerFacts.

(** ** The display updaters *)

Section DisplayFacts.
Import state rt.

Lemma count_app {A} (p : A -> bool) (l1 l2 : list A) :
  count p (l1 ++ l2) = count p l1 + count p l2.
Proof. unfold count. rewrite List.filter_app, length_app. reflexivity. Qed.

(** A line is sent to the display; when the write fails the failure is
    logged and the call returns all the same. *)
Lemma show_returns (e : lcd.env) (t : text) (n : nat) (c : string) (w : world) :
  lcd.show e t n c w =
    Returns tt
      (mkWorld (mem w)
         (logs w ++ match lcd.ShowMessage e t n with
                    | Some er => [mkLog c [AErr er]]
                    | None => []
                    end)
         (metrics w) (bus w ++ [ShowLine n t])).
Proof.
  unfold lcd.show, bind, write_bus, log_Printf, ret. simpl.
  destruct (lcd.ShowMessage e t n); simpl; rewrite ?app_nil_r; reflexivity.
Qed.

Lemma lcd_body_returns (IPIface : string) (e : lcd.env) (now : Time) (w : world) :
  unlocked (mem w) ->
  exists w',
    lcd.Updater_body IPIface (e, now) w = Returns tt w' /\
    mem w' = mem w /\ lcd.ticks w' = S (lcd.ticks w).
Proof.
  intros Hu. unfold lcd.Updater_body, bind.
  rewrite (state_Get_unlocked _ Hu), show_returns.
  destruct (String.eqb IPIface "").
  - unfold ret. rewrite !show_returns. simpl. eexists. split; [reflexivity|].
    split; [reflexivity|]. unfold lcd.ticks. simpl bus.
    rewrite !count_app. unfold count. simpl. lia.
  - destruct (lcd.getIP e IPIface) as [ip er]. rewrite !show_returns. simpl.
    eexists. split; [reflexivity|].
    split; [reflexivity|]. unfold lcd.ticks. simpl bus.
    rewrite !count_app. unfold count. simpl. lia.
Qed.

Lemma lcd_cleanup_returns (off : option error) (w : world) :
  exists w', lcd.cleanup off w = Returns tt w' /\ mem w' = mem w.
Proof.
  unfold lcd.cleanup, bind, write_bus, log_Printf, ret.
  destruct off; eexists; (split; [reflexivity|reflexivity]).
Qed.

Lemma lcd_Updater_returns (IPIface : string) (off : option error)
    (its : list ((lcd.env * Time) * sync.chosen)) (w : world) :
  unlocked (mem w) ->
  exists b w',
    lcd.Updater IPIface off its w = Returns b w' /\
    mem w' = mem w /\
    (Forall (fun i => snd i = sync.CaseTimer) its ->
     b = false /\ lcd.ticks w' = lcd.ticks w + length its).
Proof.
  unfold lcd.Updater. revert w.
  induction its as [|[[e now] ch] its IH]; intros w Hu; cbn [tick_loop].
  - exists false, w. cbn [length]. repeat split; lia.
  - unfold bind.
    destruct (lcd_body_returns IPIface e now w Hu) as (w1 & -> & Hm & Ht).
    destruct ch.
    + destruct (lcd_cleanup_returns off w1) as (w2 & -> & Hm2).
      exists true, w2. split; [reflexivity|]. split; [congruence|].
      intros HF. inversion HF; subst. discriminate.
    + destruct (IH w1) as (b & w2 & -> & Hm2 & HT); [rewrite Hm; exact Hu|].
      exists b, w2. split; [reflexivity|]. split; [congruence|].
      intros HF. inversion HF; subst. destruct (HT H2) as [-> Hc].
      split; [reflexivity|]. simpl. lia.
Qed.

(** With a display, a frame that cannot be drawn ends the process:
    [log.Fatal]. *)
Lemma pioled_display_fatal (h : pioled.hw) (er : error) (now : Time) (w : world) :
  pioled.dev h = true -> unlocked (mem w) ->
  exists w',
    pioled.display h (Some er, now) w = Exits 1 w' /\
    logs w' = logs w ++ [mkLog "%v" [AErr er]].
Proof.
  intros Hd Hu. unfold pioled.display, pioled.render, bind. rewrite Hd. simpl.
  rewrite (state_Get_unlocked _ Hu). simpl. eexists. split; reflexivity.
Qed.

(** C6, as the code has it.  In the LCD updater a line that cannot be
    written is logged and the call returns; whatever writes fail, every
    iteration of [lcd.Updater] returns, the loop runs all its ticks until
    it sees the cancellation (one tick per iteration while the timer case
    is taken), and the process neither exits nor panics.  In the PiOLED
    updater a frame that cannot be drawn is logged by [log.Fatal], which
    ends the process with status 1. *)
Theorem display_write_failures
    (IPIface : string) (off : option error)
    (its : list ((lcd.env * Time) * sync.chosen)) (w : world) :
  unlocked (mem w) ->
  (forall e t n c er w0, lcd.ShowMessage e t n = Some er ->
     exists w1, lcd.show e t n c w0 = Returns tt w1 /\
       logs w1 = logs w0 ++ [mkLog c [AErr er]]) /\
  (exists b w',
     lcd.Updater IPIface off its w = Returns b w' /\
     (Forall (fun i => snd i = sync.CaseTimer) its ->
      b = false /\ lcd.ticks w' = lcd.ticks w + length its)) /\
  (forall h er now, pioled.dev h = true ->
     exists w', pioled.display h (Some er, now) w = Exits 1 w' /\
       logs w' = logs w ++ [mkLog "%v" [AErr er]]).
Proof.
  intros Hu. split; [|split].
  - intros e t n c er w0 He. eexists. split; [apply show_returns|].
    rewrite He. reflexivity.
  - destruct (lcd_Updater_returns IPIface off its w Hu) as (b & w' & H & _ & HT).
    exists b, w'. auto.
  - intros h er now Hd. apply pioled_display_fatal; assumption.
Qed.

End DisplayFacts.

Section DisplayExamples.
Import state rt.

Lemma display_write_failures_witness :
  exists w',
    lcd.Updater "wlan0" None
      [((scenario.lcd_broken, scenario.new_year_2024), sync.CaseTimer);
       ((scenario.lcd_broken, (scenario.new_year_2024 + 2000000000)%Z), sync.CaseTimer)]
      boot = Returns false w' /\
    lcd.ticks w' = 2.
Proof.
  destruct (display_write_failures "wlan0" None
      [((scenario.lcd_broken, scenario.new_year_2024), sync.CaseTimer);
       ((scenario.lcd_broken, (scenario.new_year_2024 + 2000000000)%Z), sync.CaseTimer)]
      boot (conj eq_refl eq_refl))
    as (_ & (b & w' & H & HT) & _).
  destruct HT as [-> Ht]; [repeat constructor|].
  exists w'. split; [exact H | exact Ht].
Defined.

(** C6 as stated fails for the PiOLED updater: with a display attached,
    the first frame that cannot be drawn ends the process with status 1,
    and the tick that would have followed never runs. *)
Lemma pioled_draw_failure_exits :
  (exists w',
     pioled.Updater true (pioled.mkHw true true) None
       [((Some "write /dev/i2c-1: remote I/O error", scenario.new_year_2024),
         sync.CaseTimer);
        ((None, (scenario.new_year_2024 + 500000000)%Z), sync.CaseTimer)]
       boot = Exits 1 w' /\
     pioled.frames w' = 1) /\
  ~ (exists b w',
     pioled.Updater true (pioled.mkHw true true) None
       [((Some "write /dev/i2c-1: remote I/O error", scenario.new_year_2024),
         sync.CaseTimer);
        ((None, (scenario.new_year_2024 + 500000000)%Z), sync.CaseTimer)]
       boot = Returns b w').
Proof.
  split.
  - eexists. split; [vm_compute; reflexivity | reflexivity].
  - intros (b & w' & H). vm_compute in H. discriminate.
Qed.

End DisplayExamples.

(** ** The periodic-task loop *)

Section SelectFacts.
Import sync.
Local Open Scope Z_scope.




End SelectFacts.

Lemma last_cons {A} (l : list A) (x d : A) :
  List.last (x :: l) d = List.last l x.
Proof.
  revert x d. induction l as [|y l IH]; intros x d; [reflexivity|].
  change (List.last (x :: y :: l) d) with (List.last (y :: l) d).
  rewrite (IH y d), (IH y x). reflexivity.
Qed.

Section RepeatFacts.
Import sync.
Local Open Scope Z_scope.
Context {St : Type} (f : Z -> St -> St * Z) (d : Z) (coins : nat -> bool).













End RepeatFacts.

Section RepeatExamples.
Import sync.
Local Open Scope Z_scope.


(** The run of the witness: invocations at 0, 6 and 12, return at 13. *)
Example RepeatUntilCancelled_run :
  RepeatUntilCancelled scenario.one_ns (Some 12) 5 (scenario.timer_first 2)
    4 0 0 tt = Some ([mkInv 0 1; mkInv 6 7; mkInv 12 13], tt, 13).
Proof. reflexivity. Qed.




End RepeatExamples.

(** ** Shutdown *)

Section CountFacts.
Context {A : Type} (p : A -> bool).

Lemma count_cons (x : A) (l : list A) :
  count p (x :: l) = (if p x then 1 else 0) + count p l.
Proof. unfold count. simpl. destruct (p x); reflexivity. Qed.

(** Replacing one element moves the count by that element's share. *)
Lemma count_insert (l : list A) (k : nat) (x y : A) :
  l !! k = Some x ->
  count p (<[k:=y]> l) + (if p x then 1 else 0) =
  count p l + (if p y then 1 else 0).
Proof.
  revert k. induction l as [|z l IH]; intros [|k] H; try discriminate.
  - injection H as ->. simpl. rewrite !count_cons. lia.
  - simpl in *. rewrite !count_cons. specialize (IH k H). lia.
Qed.

Lemma count_none (l : list A) :
  count p l = 0 -> Forall (fun x => p x = false) l.
Proof.
  induction l as [|z l IH]; [constructor|]. rewrite count_cons.
  destruct (p z) eqn:E; [discriminate|]. intros H. constructor; auto.
Qed.

Lemma count_all (l : list A) :
  Forall (fun x => p x = true) l -> count p l = length l.
Proof.
  induction 1 as [|z l Hz _ IH]; [reflexivity|].
  rewrite count_cons, Hz, IH. reflexivity.
Qed.

End CountFacts.

Section ShutdownFacts.
Import lifecycle inv.

(** The steps of the process, case by case. *)
Lemma fire_cases (v : variant) (e : event) (p p' : proc) :
  fire v e p = Some p' ->
  main p <> Exited /\
  ((gs p' = gs p /\ wg p' = wg p /\ main p' = main p) \/
   (gs p' = gs p /\ wg p' = wg p /\ main p = Selecting /\ main p' = Cancelled) \/
   (gs p' = gs p /\ wg p' = wg p /\ main p = Cancelled /\ main p' = Exited /\
      (v = MainGo \/ wg p = 0)) \/
   (exists k a n,
      gs p !! k = Some (mkG a InLoop n) /\ done p = true /\
      gs p' = <[k := mkG a Returned (if has_cleanup a then S n else n)]> (gs p) /\
      wg p' = wg p /\ main p' = main p) \/
   (exists k a n,
      v = WaitGroupMain /\ gs p !! k = Some (mkG a Returned n) /\
      gs p' = <[k := mkG a Finished n]> (gs p) /\
      wg p' = pred (wg p) /\ main p' = main p)).
Proof.
  intros H. unfold fire in H.
  destruct (main p) eqn:Em; [| |discriminate]; (split; [discriminate|]);
    destruct e as [| |k|k|k].
  all: try (injection H as <-; left; auto; fail).
  all: try (destruct (gs p !! k) as [[a [] n]|] eqn:Eg; try discriminate).
  all: try (injection H as <-; left; auto; fail).
  all: try (destruct (done p) eqn:Ed; [|discriminate]; injection H as <-;
            do 3 right; left; exists k, a, n; auto; fail).
  all: try (destruct v; [discriminate|]; injection H as <-;
            do 4 right; exists k, a, n; auto; fail).
  all: try (destruct v; discriminate).
  - destruct (interrupted p); [|discriminate]. injection H as <-.
    right; left. simpl. auto.
  - destruct v.
    + injection H as <-. do 2 right; left. simpl. repeat split; auto.
    + destruct (wg p) eqn:Ew; [|discriminate]. injection H as <-.
      do 2 right; left. simpl. repeat split; auto.
Qed.

(** No step makes a goroutine clean up twice, or return without its
    cleanup, in either variant. *)
Lemma fire_cleaned (v : variant) (e : event) (p p' : proc) :
  Forall cleaned (gs p) -> fire v e p = Some p' -> Forall cleaned (gs p').
Proof.
  intros Hg H. apply fire_cases in H as [_ H].
  destruct H as [(-> & _)|[(-> & _)|[(-> & _)|[H|H]]]]; try assumption.
  - destruct H as (k & a & n & Eg & _ & -> & _).
    apply Forall_insert; [assumption|].
    pose proof (proj1 (Forall_lookup _ _) Hg _ _ Eg) as Hc.
    unfold cleaned in *. simpl in *. rewrite Hc.
    destruct (has_cleanup a); reflexivity.
  - destruct H as (k & a & n & _ & Eg & -> & _).
    apply Forall_insert; [assumption|].
    exact (proj1 (Forall_lookup _ _) Hg _ _ Eg).
Qed.

(** With the [WaitGroup], the counter follows the goroutines. *)
Lemma fire_counted (v : variant) (e : event) (p p' : proc) :
  counted p -> fire v e p = Some p' -> counted p'.
Proof.
  unfold counted. intros Hw H. apply fire_cases in H as [_ H].
  destruct H as [(-> & -> & _)|[(-> & -> & _)|[(-> & -> & _)|[H|H]]]];
    try assumption.
  - destruct H as (k & a & n & Eg & _ & -> & -> & _).
    pose proof (count_insert unfinished _ _ _
                  (mkG a Returned (if has_cleanup a then S n else n)) Eg) as Hc.
    simpl in Hc. lia.
  - destruct H as (k & a & n & _ & Eg & -> & -> & _).
    pose proof (count_insert unfinished _ _ _ (mkG a Finished n) Eg) as Hc.
    simpl in Hc. lia.
Qed.

Lemma fire_waited (e : event) (p p' : proc) :
  fire WaitGroupMain e p = Some p' -> waited p'.
Proof.
  unfold waited. intros H. apply fire_cases in H as [Hne H].
  destruct H as [(_ & _ & E)|[(_ & _ & _ & E)|[(_ & -> & _ & _ & [E|E])|[H|H]]]];
    try congruence.
  - destruct H as (k & a & n & _ & _ & _ & _ & E). congruence.
  - destruct H as (k & a & n & _ & _ & _ & _ & E). congruence.
Qed.

Lemma fire_acts (v : variant) (e : event) (p p' : proc) :
  fire v e p = Some p' -> map act (gs p') = map act (gs p).
Proof.
  intros H. apply fire_cases in H as [_ H].
  destruct H as [(-> & _)|[(-> & _)|[(-> & _)|[H|H]]]]; try reflexivity.
  - destruct H as (k & a & n & Eg & _ & -> & _).
    change (act <$> <[k:=mkG a Returned (if has_cleanup a then S n else n)]> (gs p)
            = act <$> gs p).
    rewrite list_fmap_insert. apply list_insert_id.
    rewrite list_lookup_fmap, Eg. reflexivity.
  - destruct H as (k & a & n & _ & Eg & -> & _).
    change (act <$> <[k:=mkG a Finished n]> (gs p) = act <$> gs p).
    rewrite list_fmap_insert. apply list_insert_id.
    rewrite list_lookup_fmap, Eg. reflexivity.
Qed.

Lemma boot_invariants (v : variant) (acts : list activity) :
  Forall cleaned (gs (boot v acts)) /\
  map act (gs (boot v acts)) = acts /\
  (v = WaitGroupMain -> counted (boot v acts) /\ waited (boot v acts)).
Proof.
  split; [|split].
  - simpl. induction acts; constructor; auto. reflexivity.
  - simpl. induction acts; simpl; congruence.
  - intros ->. split; [|discriminate]. unfold counted. simpl.
    rewrite count_all, length_map; [reflexivity|].
    induction acts; constructor; auto.
Qed.

Lemma fire_all_invariants (es : list event) (p p' : proc) :
  counted p -> waited p -> Forall cleaned (gs p) ->
  fire_all WaitGroupMain es p = Some p' ->
  counted p' /\ waited p' /\ Forall cleaned (gs p') /\
  map act (gs p') = map act (gs p).
Proof.
  revert p. induction es as [|e es IH]; intros p Hw Hx Hg; simpl.
  - intros [= <-]. auto.
  - destruct (fire WaitGroupMain e p) as [p1|] eqn:E; [|discriminate].
    intros H.
    destruct (IH p1) as (? & ? & ? & Ha);
      eauto using fire_counted, fire_cleaned, fire_waited.
    repeat split; auto. rewrite Ha. eapply fire_acts, E.
Qed.

Lemma fire_all_cleaned (v : variant) (es : list event) (p p' : proc) :
  Forall cleaned (gs p) -> fire_all v es p = Some p' -> Forall cleaned (gs p').
Proof.
  revert p. induction es as [|e es IH]; intros p Hg; simpl.
  - intros [= <-]. auto.
  - destruct (fire v e p) as [p1|] eqn:E; [|discriminate].
    eauto using fire_cleaned.
Qed.

(** The [main]s that end with [wg.Wait()]: however the signal, [main] and
    the goroutines interleave, when the process exits every activity has
    seen the cancellation and returned, each activity with a cleanup has
    run it exactly once, and the others never.  (The steps of
    [lifecycle.fire]: activities that run until they are cancelled.) *)
Theorem wait_group_main_waits
    (acts : list activity) (es : list event) (p : proc) :
  fire_all WaitGroupMain es (boot WaitGroupMain acts) = Some p ->
  main p = Exited ->
  map act (gs p) = acts /\ Forall through (gs p).
Proof.
  intros H Hx.
  destruct (boot_invariants WaitGroupMain acts) as (Hc & Ha & Hb).
  destruct (Hb eq_refl) as [Hn Hw].
  destruct (fire_all_invariants _ _ _ Hn Hw Hc H) as (Hn' & Hw' & Hc' & Ha').
  split; [congruence|].
  unfold counted in Hn'. rewrite (Hw' Hx) in Hn'. symmetry in Hn'.
  apply count_none in Hn'.
  apply Forall_forall. intros g Hin.
  pose proof (proj1 (Forall_forall _ _) Hn' g Hin) as Hu.
  pose proof (proj1 (Forall_forall _ _) Hc' g Hin) as Hcl.
  unfold unfinished in Hu. unfold cleaned in Hcl. unfold through.
  destruct (pc g); try discriminate. auto.
Qed.

(** In either variant no activity ever runs its cleanup twice. *)
Lemma cleanup_at_most_once
    (v : variant) (acts : list activity) (es : list event) (p : proc) :
  fire_all v es (boot v acts) = Some p ->
  Forall (fun g => cleanups g <= 1) (gs p).
Proof.
  intros H. destruct (boot_invariants v acts) as (Hc & _).
  eapply Forall_impl; [exact (fire_all_cleaned _ _ _ _ Hc H)|].
  intros g Hg. unfold cleaned in Hg.
  destruct (pc g); try destruct (has_cleanup (act g)); lia.
Qed.

(** The three activities of the combined [main] shut down in order. *)
Example wait_group_main_run :
  fire_all WaitGroupMain
    [Tick 1; Signal; Main; SeeDone 1; Tick 2; WgDone 1; SeeDone 0; SeeDone 2;
     WgDone 2; WgDone 0; Main]
    (boot WaitGroupMain scenario.combined) =
  Some (mkProc false true Exited 0
          [mkG DhtUpdater Finished 0; mkG LcdUpdater Finished 1;
           mkG PioledUpdater Finished 1]).
Proof. reflexivity. Qed.

(** With the [WaitGroup], [main] cannot leave while a goroutine is still
    in its loop. *)
Example wait_group_main_blocks :
  fire_all WaitGroupMain [Signal; Main; SeeDone 0; WgDone 0; Main]
    (boot WaitGroupMain scenario.combined) = None.
Proof. reflexivity. Qed.

(** C5, at the failing input.  In [main.go] the [select] that calls
    [cancel()] is the last statement of [main]: after the signal [main]
    cancels the context and returns, and the process is gone while the
    LCD and PiOLED updaters are still in their loops, their cleanup not
    run; no further step of any goroutine is possible. *)
Theorem main_go_exits_without_cleanup :
  fire_all MainGo [Signal; Main; Main] (boot MainGo scenario.combined) =
    Some (mkProc false true Exited 0
            [mkG DhtUpdater InLoop 0; mkG LcdUpdater InLoop 0;
             mkG PioledUpdater InLoop 0]) /\
  forall e p,
    fire MainGo e
      (mkProc false true Exited 0
         [mkG DhtUpdater InLoop 0; mkG LcdUpdater InLoop 0;
          mkG PioledUpdater InLoop 0]) = Some p -> False.
Proof.
  split; [reflexivity|]. intros e p H. discriminate H.
Qed.

End ShutdownFacts.

(** ** Concurrent [Get] and [Set] *)

Section CountMore.
Context {A : Type} (p : A -> bool).

Lemma count_pos (l : list A) (k : nat) (x : A) :
  l !! k = Some x -> p x = true -> 1 <= count p l.
Proof.
  revert k. induction l as [|z l IH]; intros [|k] H Hx; try discriminate;
    rewrite count_cons.
  - injection H as ->. rewrite Hx. lia.
  - specialize (IH k H Hx). lia.
Qed.

Lemma count_unique (l : list A) (j k : nat) (x y : A) :
  count p l <= 1 ->
  l !! j = Some x -> p x = true -> l !! k = Some y -> p y = true -> j = k.
Proof.
  revert j k. induction l as [|z l IH]; intros [|j] [|k] Hc Hj Hx Hk Hy;
    try discriminate; rewrite count_cons in Hc; simpl in *.
  - reflexivity.
  - injection Hj as ->. rewrite Hx in Hc.
    pose proof (count_pos l k y Hk Hy). lia.
  - injection Hk as ->. rewrite Hy in Hc.
    pose proof (count_pos l j x Hj Hx). lia.
  - f_equal. apply IH; auto. destruct (p z); lia.
Qed.

End CountMore.

Section FieldFacts.
Import state.

Lemma same_all (a b : State) : (forall f, same_field f a b) -> a = b.
Proof.
  intros H. destruct a, b.
  pose proof (H FTemperature). pose proof (H FHumidity).
  pose proof (H FIP). pose proof (H FLastSensorUpdate).
  simpl in *. congruence.
Qed.

(** After [Store f] the stored field is the one of [*s]; the fields
    stored before stay as they were. *)
Lemma same_after_store (f f' : field) (buf c : State) :
  (f' <> f -> same_field f' buf c) ->
  same_field f' buf (copy_field f buf c).
Proof. destruct f, f', buf, c; simpl; intros H; try reflexivity; apply H; discriminate. Qed.

(** After [Load f] the loaded field is the stored one; the fields loaded
    before stay as they were. *)
Lemma same_after_load (f f' : field) (buf c : State) :
  (f' <> f -> same_field f' buf c) ->
  same_field f' (copy_field f c buf) c.
Proof. destruct f, f', buf, c; simpl; intros H; try reflexivity; apply H; discriminate. Qed.

End FieldFacts.

Section ConcFacts.
Import state conc inv.
Variable sets : list State.

(** A goroutine that holds the mutex in neither way does not care about
    the stored value. *)
Lemma thread_ok_idle (c1 c2 : State) (t : goroutine) :
  holdsW t = false -> holdsR t = false ->
  thread_ok sets c1 t -> thread_ok sets c2 t.
Proof.
  intros HW HR [H1 H2 H3 H4 H5 H6].
  constructor; auto; rewrite ?HW, ?HR; discriminate.
Qed.

Lemma holder_facts (c : config) (k : nat) (t : goroutine) :
  conc_inv sets c -> gs c !! k = Some t ->
  (holdsW t = true ->
     writer (mu (shared c)) = true /\ readers (mu (shared c)) = 0) /\
  (holdsR t = true ->
     writer (mu (shared c)) = false /\ 1 <= readers (mu (shared c))).
Proof.
  intros [Hw Hr Hx _ _] Hk. split; intros Ht.
  - pose proof (count_pos holdsW _ _ _ Hk Ht) as Hp.
    destruct (writer (mu (shared c))); [auto | lia].
  - pose proof (count_pos holdsR _ _ _ Hk Ht) as Hp.
    destruct (writer (mu (shared c))); [rewrite Hx in Hr by reflexivity; lia|].
    split; [reflexivity | lia].
Qed.

(** One goroutine takes a step that keeps the mutex bookkeeping right and
    changes the stored value only as the writer. *)
Lemma inv_update (c : config) (k : nat) (t t' : goroutine) (g' : store) :
  conc_inv sets c -> gs c !! k = Some t ->
  (if holdsW t' then 1 else 0) + (if writer (mu (shared c)) then 1 else 0) =
    (if holdsW t then 1 else 0) + (if writer (mu g') then 1 else 0) ->
  (if holdsR t' then 1 else 0) + readers (mu (shared c)) =
    (if holdsR t then 1 else 0) + readers (mu g') ->
  (writer (mu g') = true -> readers (mu g') = 0) ->
  (writer (mu g') = false -> known sets (cur g')) ->
  thread_ok sets (cur g') t' ->
  (cur g' = cur (shared c) \/ holdsW t = true) ->
  conc_inv sets (mkConfig g' (<[k:=t']> (gs c))).
Proof.
  intros Hinv Hk HW HR Hx Hwhole Ht' Hcur.
  pose proof (holder_facts c k t Hinv Hk) as [FW _].
  destruct Hinv as [Iw Ir Ix Iwh It].
  constructor; simpl; auto.
  - pose proof (count_insert holdsW _ _ _ t' Hk). lia.
  - pose proof (count_insert holdsR _ _ _ t' Hk). lia.
  - intros j y Hj. destruct (decide (j = k)) as [->|Hne].
    + rewrite list_lookup_insert_eq in Hj by (eapply lookup_lt_Some, Hk).
      injection Hj as <-. exact Ht'.
    + rewrite list_lookup_insert_ne in Hj by auto.
      pose proof (It j y Hj) as Hy.
      destruct Hcur as [->|HtW]; [exact Hy|].
      destruct (FW HtW) as [Ew Er].
      apply (thread_ok_idle (cur (shared c))); [| |exact Hy].
      * destruct (holdsW y) eqn:E; [|reflexivity]. exfalso. apply Hne.
        apply (count_unique holdsW (gs c) j k y t); auto.
        rewrite Iw, Ew. lia.
      * rewrite Er in Ir. apply count_none in Ir.
        exact (proj1 (Forall_lookup _ _) Ir j y Hj).
Qed.

End ConcFacts.

Section ConcStep.
Import state conc inv.
Variable sets : list State.

Lemma enter_inv (c : config) (k : nat) (t : goroutine) (c0 : call) (cs : list call) :
  conc_inv sets c -> gs c !! k = Some t ->
  rest t = [] -> todo t = c0 :: cs ->
  conc_inv sets
    (mkConfig (shared c)
       (<[k := mkG (fst (enter c0)) (snd (enter c0)) cs (got t)]> (gs c))).
Proof.
  intros Hinv Hk Hr Htd.
  pose proof (inv_threads _ _ Hinv k t Hk) as [_ T2 T3 _ _ _].
  assert (HW : holdsW t = false) by (unfold holdsW; rewrite Hr; reflexivity).
  assert (HR : holdsR t = false) by (unfold holdsR; rewrite Hr; reflexivity).
  apply (inv_update sets c k t); auto.
  - rewrite HW. destruct c0; reflexivity.
  - rewrite HR. destruct c0; reflexivity.
  - apply (inv_excl _ _ Hinv).
  - apply (inv_whole _ _ Hinv).
  - constructor; simpl.
    + destruct c0; simpl; auto 20.
    + intros s Hs. apply T2. rewrite Htd. right. exact Hs.
    + exact T3.
    + destruct c0; [discriminate|]. intros _. apply T2. rewrite Htd. left. reflexivity.
    + destruct c0; discriminate.
    + destruct c0; discriminate.
Qed.

Lemma exec_inv (c : config) (k : nat) (t : goroutine)
    (i : instr) (r : list instr) (g' : store) (b' : State) :
  conc_inv sets c -> gs c !! k = Some t ->
  rest t = i :: r -> exec i (shared c) (buf t) = Some (g', b') ->
  conc_inv sets
    (mkConfig g'
       (<[k := mkG r b' (todo t)
                 (match i with RUnlock => b' :: got t | _ => got t end)]> (gs c))).
Proof.
  intros Hinv Hk Hr He.
  pose proof (inv_threads _ _ Hinv k t Hk) as [T1 T2 T3 T4 T5 T6].
  pose proof (holder_facts sets c k t Hinv Hk) as [FW FR].
  pose proof (inv_excl _ _ Hinv) as Ix.
  pose proof (inv_whole _ _ Hinv) as Iwh.
  assert (Hbuf : holdsR t = true ->
            (forall f, has (Load f) (rest t) = false) -> buf t = cur (shared c)).
  { intros HR Hall. apply same_all. intros f. apply (T6 HR), Hall. }
  assert (Hcur : holdsW t = true ->
            (forall f, has (Store f) (rest t) = false) -> cur (shared c) = buf t).
  { intros HW Hall. symmetry. apply same_all. intros f. apply (T5 HW), Hall. }
  unfold holdsW, holdsR in *. rewrite Hr in *.
  destruct (shared c) as [[w n] cu] eqn:Es. simpl in Ix, Iwh, FW, FR, T5, T6, Hbuf, Hcur.
  destruct T1 as [T1|[T1|[T1|[T1|[T1|[T1|[T1|[T1|[T1|[T1|[T1|[T1|[T1|[T1|[]]]]]]]]]]]]]]];
    try discriminate T1; injection T1 as <- <-.
  all: repeat match goal with
       | H : ?b = true -> _ |- _ =>
           let v := eval vm_compute in b in
           match v with
           | true => specialize (H eq_refl)
           | false => clear H
           end
       end.
  all: try (destruct FW as [-> ->]).
  all: try (destruct FR as [-> Hn]).
  all: simpl in He.
  all: try (destruct w; [discriminate He|]).
  all: try (destruct n; [|discriminate He]).
  all: try (destruct n; [lia|]).
  all: injection He as <- <-.
  all: apply (inv_update sets c k t); auto;
    unfold holdsW, holdsR; rewrite ?Hr, ?Es; simpl; try reflexivity; try lia;
    try discriminate; auto.
  all: try (constructor; simpl;
            [ unfold phases; simpl; tauto
            | exact T2
            | try exact T3
            | intros H; vm_compute in H; discriminate H
            | intros H; vm_compute in H; try discriminate H
            | intros H; vm_compute in H; try discriminate H ]).
  all: try (intros f Hf; destruct f; vm_compute in Hf; try discriminate Hf;
            simpl;
            first [reflexivity | apply (T6 FTemperature) | apply (T6 FHumidity)
                  | apply (T6 FIP) | apply (T6 FLastSensorUpdate)];
            vm_compute; reflexivity).
  all: try (split;
            [ first [exact T4 | exact (proj1 T5)]
            | intros f Hf; destruct f; vm_compute in Hf; try discriminate Hf;
              simpl;
              first [reflexivity | apply (proj2 T5 FTemperature)
                    | apply (proj2 T5 FHumidity) | apply (proj2 T5 FIP)
                    | apply (proj2 T5 FLastSensorUpdate)];
              vm_compute; reflexivity ]).
  - intros v [<-|Hv]; [|apply T3, Hv].
    rewrite Hbuf; [apply Iwh; reflexivity | intros []; reflexivity].
  - intros _. rewrite Hcur; [right; exact (proj1 T5) | intros []; reflexivity].
Qed.

(** Every step keeps the invariant. *)
Lemma step_inv (c c' : config) :
  conc_inv sets c -> step c c' -> conc_inv sets c'.
Proof.
  intros Hinv Hs. destruct Hs as [c k t t' g' Hk Hg].
  unfold gstep in Hg. destruct (rest t) as [|i r] eqn:Hr.
  - destruct (todo t) as [|c0 cs] eqn:Htd; [discriminate|].
    injection Hg as <- <-. apply (enter_inv c k t c0 cs); assumption.
  - destruct (exec i (shared c) (buf t)) as [[g1 b1]|] eqn:He; [|discriminate].
    injection Hg as <- <-. apply (exec_inv c k t i r g1 b1); assumption.
Qed.

Lemma steps_inv (c c' : config) :
  conc_inv sets c -> rtc step c c' -> conc_inv sets c'.
Proof. intros Hinv Hs. induction Hs; eauto using step_inv. Qed.

End ConcStep.

Section ConcTheorem.
Import state conc inv.

Lemma count_false {A} (p : A -> bool) (l : list A) :
  Forall (fun x => p x = false) l -> count p l = 0.
Proof.
  induction 1 as [|z l Hz _ IH]; [reflexivity|].
  rewrite count_cons, Hz, IH. reflexivity.
Qed.

Lemma start_inv (progs : list (list call)) :
  conc_inv (set_args progs) (start progs).
Proof.
  constructor; simpl.
  - apply count_false, Forall_map, Forall_forall. reflexivity.
  - apply count_false, Forall_map, Forall_forall. reflexivity.
  - discriminate.
  - intros _. left. reflexivity.
  - intros k t Hk. change (map ?f ?l) with (f <$> l) in Hk.
    rewrite list_lookup_fmap in Hk.
    destruct (progs !! k) as [p|] eqn:Ep; [|discriminate]. injection Hk as <-.
    constructor; simpl; try discriminate.
    + unfold phases. simpl. tauto.
    + intros s Hs. unfold set_args. apply in_flat_map. exists p. split.
      * apply list_elem_of_In, list_elem_of_lookup. eauto.
      * apply in_flat_map. exists (CallSet s). split; [exact Hs | left; reflexivity].
    + intros v [].
Qed.

Lemma set_args_In (progs : list (list call)) (s : State) :
  In s (set_args progs) -> exists p, In p progs /\ In (CallSet s) p.
Proof.
  unfold set_args. intros H. apply in_flat_map in H as (p & Hp & H).
  apply in_flat_map in H as (c & Hc & H). exists p. split; [exact Hp|].
  destruct c as [|s']; [destruct H|]. destruct H as [->|[]]. exact Hc.
Qed.

(** A schedule is an interleaving. *)
Lemma schedule_reachable (sched : list nat) (c : config) :
  rtc step c (schedule sched c).
Proof.
  revert c. induction sched as [|k sched IH]; intros c; simpl.
  - constructor.
  - destruct (gs c !! k) as [t|] eqn:Ek; [|apply IH].
    destruct (gstep (shared c) t) as [[g' t']|] eqn:Es; [|apply IH].
    eapply rtc_l; [|apply IH]. econstructor; eassumption.
Qed.

(** C1.  Goroutines that call [Set] and [Get] in any number and order,
    their atomic steps interleaved in any way: every value a [Get] has
    returned is the zero [State] or, whole, the argument of one of the
    [Set] calls. *)
Theorem Get_returns_one_Set (progs : list (list call)) (c : config) :
  rtc step (start progs) c ->
  forall k t v,
    gs c !! k = Some t -> In v (got t) ->
    v = zero \/ exists p, In p progs /\ In (CallSet v) p.
Proof.
  intros Hs k t v Hk Hv.
  pose proof (steps_inv _ _ _ (start_inv progs) Hs) as Hinv.
  destruct (ok_got _ _ _ (inv_threads _ _ Hinv k t Hk) v Hv) as [->|H].
  - left. reflexivity.
  - right. apply set_args_In, H.
Qed.

(** The interleaving of the scenario: the first [Get] returns the zero
    value, the second the reading of scenario B, and the store ends with
    that of scenario D once the writer is let in. *)
Example interleaving_run :
  schedule (scenario.interleaving ++ [0; 0; 0; 0; 0; 0]%nat)
           (start scenario.writer_and_reader) =
  mkConfig (mkStore (mkMu false 0) scenario.reading_D)
    [mkG [] scenario.reading_D [] [];
     mkG [] scenario.reading_B [] [scenario.reading_B; zero]].
Proof. vm_compute. reflexivity. Qed.

Lemma Get_returns_one_Set_witness :
  scenario.reading_B = zero \/
  exists p, In p scenario.writer_and_reader /\ In (CallSet scenario.reading_B) p.
Proof.
  apply (Get_returns_one_Set scenario.writer_and_reader
           (schedule scenario.interleaving (start scenario.writer_and_reader))
           (schedule_reachable _ _)
           1%nat
           (mkG [] scenario.reading_B [] [scenario.reading_B; zero])
           scenario.reading_B).
  - vm_compute. reflexivity.
  - left. reflexivity.
Defined.

End ConcTheorem.

(* ===================================================================== *)
(** * Further properties of the sources *)
(* ===================================================================== *)

(** ** The store *)

Section StoreMore.
Import state more.

Lemma Set_all_unlocked (l : list State) (g : store) :
  unlocked g ->
  exists g', Set_all l g = Some g' /\ unlocked g' /\ cur g' = List.last l (cur g).
Proof.
  revert g. induction l as [|s l IH]; intros g Hu.
  - exists g. auto.
  - cbn [Set_all]. rewrite (Set_unlocked s g Hu).
    destruct (IH (mkStore (mkMu false 0) s)) as (g' & H1 & H2 & H3);
      [split; reflexivity|].
    exists g'. split; [exact H1|]. split; [exact H2|].
    rewrite H3, last_cons. reflexivity.
Qed.

(** X2.  After any series of [Set] calls on a free store, [Get] returns
    the argument of the last one (the value stored before when the series
    is empty): every [Set] replaces the whole value, none is merged with
    an earlier one. *)
Theorem last_Set_wins (l : list State) (g : store) :
  unlocked g ->
  exists g', Set_all l g = Some g' /\ Get g' = Some (List.last l (cur g), g').
Proof.
  intros Hu. destruct (Set_all_unlocked l g Hu) as (g' & H1 & [Hw _] & H3).
  exists g'. split; [exact H1|]. rewrite (Get_no_writer g' Hw), H3. reflexivity.
Qed.

Lemma last_Set_wins_witness :
  exists g',
    Set_all [scenario.reading_B; scenario.reading_D] init = Some g' /\
    Get g' = Some (scenario.reading_D, g').
Proof.
  exact (last_Set_wins [scenario.reading_B; scenario.reading_D] init
           (conj eq_refl eq_refl)).
Defined.

End StoreMore.

(** ** Concurrent callers of the store *)

Section ConcMore.
Import state conc inv more.





(** X3.  Mutual exclusion: however the goroutines interleave, while one
    of them is between [Lock] and [Unlock] of a [Set], no goroutine is
    between [RLock] and [RUnlock] of a [Get] and no other goroutine is
    inside a [Set]. *)
Theorem mutual_exclusion (progs : list (list call)) (c : config) :
  rtc step (start progs) c ->
  forall j k t u,
    gs c !! j = Some t -> gs c !! k = Some u -> holdsW t = true ->
    holdsR u = false /\ (holdsW u = true -> j = k).
Proof.
  intros Hs j k t u Hj Hk Ht.
  pose proof (steps_inv _ _ _ (start_inv progs) Hs) as Hinv.
  destruct (holder_facts _ c j t Hinv Hj) as [FW _].
  destruct (FW Ht) as [Ew Er].
  destruct Hinv as [Iw Ir _ _ _]. split.
  - rewrite Er in Ir. apply count_none in Ir.
    exact (proj1 (Forall_lookup _ _) Ir k u Hk).
  - intros Hu. apply (count_unique holdsW (gs c) j k t u); auto.
    rewrite Iw, Ew. lia.
Qed.

Lemma mutual_exclusion_witness :
  holdsR (mkG [] zero [CallGet; CallGet] []) = false /\
  (holdsW (mkG [] zero [CallGet; CallGet] []) = true -> 0 = 1).
Proof.
  apply (mutual_exclusion scenario.writer_and_reader
           (schedule [0; 0] (start scenario.writer_and_reader))
           (schedule_reachable _ _) 0 1
           (mkG (copy_in ++ [Unlock]) scenario.reading_B
                [CallSet scenario.reading_D] [])
           (mkG [] zero [CallGet; CallGet] [])).
  - vm_compute. reflexivity.
  - vm_compute. reflexivity.
  - vm_compute. reflexivity.
Defined.

(** The steps Go allows are steps of the interleaving model, so what holds
    in every configuration the model reaches holds in those Go reaches. *)
Lemma go_step_step (c c' : config) : go_step c c' -> step c c'.
Proof. intros [c0 k t t' g' Hk Hg _]. econstructor; eassumption. Qed.

Lemma go_reachable (c c' : config) : rtc go_step c c' -> rtc step c c'.
Proof.
  induction 1 as [|x y z Hxy _ IH]; [constructor|].
  eapply rtc_l; [apply go_step_step, Hxy | exact IH].
Qed.



End ConcMore.

(** ** The periodic-task loop, further *)

Section RepeatMore.
Import sync more.
Local Open Scope Z_scope.
Context {St : Type} (f : Z -> St -> St * Z) (d : Z) (coins : nat -> bool).



End RepeatMore.

Section RepeatMoreExamples.
Import sync more.
Local Open Scope Z_scope.


End RepeatMoreExamples.

(** ** The poller and the HTTP handlers, further *)

Section ServerMore.
Import state rt server more.

Lemma poll_effect (r : DHTxx) (now now' : Time) (w : world) :
  unlocked (mem w) ->
  exists w',
    dhtUpdater r now now' w = Returns tt w' /\
    unlocked (mem w') /\
    reading w' = polled [(r, now, now')] (reading w) /\
    metrics w' = gauged [(r, now, now')] (metrics w) /\
    bus w' = bus w.
Proof.
  intros Hu. simpl. destruct (err r) as [e|] eqn:He.
  - eexists. split; [apply dhtUpdater_failure, He|]. simpl. auto.
  - eexists. split; [apply dhtUpdater_success; assumption|]. simpl.
    repeat split; reflexivity.
Qed.

Lemma polled_app ps qs s : polled (ps ++ qs) s = polled qs (polled ps s).
Proof.
  revert s. induction ps as [|[[r now] now'] ps IH]; intros s; simpl; auto.
Qed.

Lemma gauged_app ps qs g : gauged (ps ++ qs) g = gauged qs (gauged ps g).
Proof.
  revert g. induction ps as [|[[r now] now'] ps IH]; intros g; simpl; auto.
Qed.

(** X7.  The looping [dhtUpdater]: whatever the sensor does, the loop
    neither exits nor panics; after the iterations it got to, the store
    holds the temperature, humidity and clock reading of the last poll
    that succeeded (what it held before when none did), the gauges show
    that poll too, and the display bus was not touched.  The loop has
    returned exactly when one of its [select]s ended with [ctx.Done()]. *)
Theorem dhtUpdater_loop_last_good
    (its : list (DHTxx * Time * Time * sync.chosen)) (w : world) :
  unlocked (mem w) ->
  exists w',
    dhtUpdater_loop its w = Returns (cancelled its) w' /\
    unlocked (mem w') /\
    reading w' = polled (executed its) (reading w) /\
    metrics w' = gauged (executed its) (metrics w) /\
    bus w' = bus w.
Proof.
  unfold dhtUpdater_loop. revert w.
  induction its as [|[[[r now] now'] ch] its IH]; intros w Hu; cbn [tick_loop].
  - exists w. simpl. auto.
  - unfold bind.
    destruct (poll_effect r now now' w Hu) as (w1 & H1 & Hu1 & Hr1 & Hg1 & Hb1).
    cbn [fst snd]. rewrite H1. destruct ch.
    + exists w1. split; [reflexivity|]. auto.
    + destruct (IH w1 Hu1) as (w2 & H2 & Hu2 & Hr2 & Hg2 & Hb2).
      exists w2. split; [exact H2|]. split; [exact Hu2|].
      cbn [executed]. change ((r, now, now') :: executed its)
        with ([(r, now, now')] ++ executed its).
      rewrite polled_app, gauged_app, <- Hr1, <- Hg1. repeat split; congruence.
Qed.

Lemma dhtUpdater_loop_last_good_witness :
  exists w',
    dhtUpdater_loop
      [(mkDHT 0x41AC0000 0x42200000 0 None, 60%Z, 60%Z, sync.CaseTimer);
       (mkDHT (-1) (-1) 10 (Some "failed to read DHT11"), 120%Z, 120%Z,
        sync.CaseDone)] boot = Returns true w' /\
    reading w' = mkState 0x41AC0000 0x42200000 "" 60.
Proof.
  destruct (dhtUpdater_loop_last_good
      [(mkDHT 0x41AC0000 0x42200000 0 None, 60%Z, 60%Z, sync.CaseTimer);
       (mkDHT (-1) (-1) 10 (Some "failed to read DHT11"), 120%Z, 120%Z,
        sync.CaseDone)] boot (conj eq_refl eq_refl))
    as (w' & H & _ & Hr & _).
  exists w'. split; [exact H | exact Hr].
Defined.

(** The handlers read: they leave store, gauges and bus as they are. *)
Lemma serveJSON_reads (w : world) :
  unlocked (mem w) ->
  exists h w', serveJSON w = Returns h w' /\
    mem w' = mem w /\ metrics w' = metrics w /\ bus w' = bus w.
Proof.
  intros Hu. unfold serveJSON, bind. rewrite (state_Get_unlocked _ Hu).
  destruct (Encode (reading w)); do 2 eexists; (split; [reflexivity|]);
    simpl; auto.
Qed.

Lemma serveHTTP_reads (w : world) :
  unlocked (mem w) -> exists h, serveHTTP w = Returns h w.
Proof.
  intros Hu. unfold serveHTTP, bind. rewrite (state_Get_unlocked _ Hu).
  eexists. reflexivity.
Qed.

Lemma serve_effect (ops : list op) (w : world) :
  unlocked (mem w) ->
  exists hs w',
    serve ops w = Returns hs w' /\
    unlocked (mem w') /\
    reading w' = polled (poll_inputs ops) (reading w) /\
    metrics w' = gauged (poll_inputs ops) (metrics w) /\
    length hs + length (poll_inputs ops) = length ops.
Proof.
  revert w. induction ops as [|o ops IH]; intros w Hu.
  - exists [], w. simpl. auto.
  - destruct o as [r now now'| |]; cbn [serve poll_inputs]; unfold bind.
    + destruct (poll_effect r now now' w Hu) as (w1 & -> & Hu1 & Hr1 & Hg1 & _).
      destruct (IH w1 Hu1) as (hs & w2 & -> & Hu2 & Hr2 & Hg2 & Hl).
      exists hs, w2. split; [reflexivity|]. split; [exact Hu2|].
      change ((r, now, now') :: poll_inputs ops)
        with ([(r, now, now')] ++ poll_inputs ops).
      rewrite polled_app, gauged_app, <- Hr1, <- Hg1.
      split; [exact Hr2|]. split; [exact Hg2|]. simpl in *. lia.
    + destruct (serveHTTP_reads w Hu) as (h & ->).
      destruct (IH w Hu) as (hs & w2 & -> & Hu2 & Hr2 & Hg2 & Hl).
      exists (h :: hs), w2. split; [reflexivity|]. split; [exact Hu2|].
      split; [exact Hr2|]. split; [exact Hg2|]. simpl. lia.
    + destruct (serveJSON_reads w Hu) as (h & w1 & -> & Hm & Hg & _).
      destruct (IH w1) as (hs & w2 & -> & Hu2 & Hr2 & Hg2 & Hl);
        [rewrite Hm; exact Hu|].
      exists (h :: hs), w2. split; [reflexivity|]. split; [exact Hu2|].
      unfold reading in *. rewrite Hm in Hr2. rewrite Hg in Hg2.
      split; [exact Hr2|]. split; [exact Hg2|]. simpl. lia.
Qed.

(** X9.  The HTTP handlers only read: after any series of polls and
    requests the stored reading and the gauges are what the polls alone
    leave, namely those of the last successful poll, and every request
    got one response. *)
Theorem requests_read_only (ops : list op) (w : world) :
  unlocked (mem w) ->
  exists hs w',
    serve ops w = Returns hs w' /\
    reading w' = polled (poll_inputs ops) (reading w) /\
    metrics w' = gauged (poll_inputs ops) (metrics w) /\
    length hs + length (poll_inputs ops) = length ops.
Proof.
  intros Hu. destruct (serve_effect ops w Hu) as (hs & w' & H & _ & ?).
  exists hs, w'. auto.
Qed.

Lemma requests_read_only_witness :
  exists hs w',
    serve [GetApi; Poll (mkDHT 0x41AC0000 0x42200000 0 None) 60 60; GetRoot;
           GetApi] boot = Returns hs w' /\
    reading w' = mkState 0x41AC0000 0x42200000 "" 60.
Proof.
  destruct (requests_read_only
              [GetApi; Poll (mkDHT 0x41AC0000 0x42200000 0 None) 60 60;
               GetRoot; GetApi] boot (conj eq_refl eq_refl))
    as (hs & w' & H & Hr & _).
  exists hs, w'. split; [exact H | exact Hr].
Defined.

Lemma polled_gauged_agree ps (s : State) (g : gauges) :
  (tempGauge g = OfFloat32 (Temperature s) /\
   humidityGauge g = OfFloat32 (Humidity s)) \/
  (s = zero /\ g = metrics boot) ->
  (tempGauge (gauged ps g) = OfFloat32 (Temperature (polled ps s)) /\
   humidityGauge (gauged ps g) = OfFloat32 (Humidity (polled ps s))) \/
  (polled ps s = zero /\ gauged ps g = metrics boot).
Proof.
  revert s g. induction ps as [|[[r now] now'] ps IH]; intros s g H; simpl.
  - exact H.
  - apply IH. destruct (err r); [exact H|]. left. simpl. auto.
Qed.

(** The statements of a poll, one after the other, are the poll. *)
Lemma statements_are_dhtUpdater (r : DHTxx) (now now' : Time) (w : world) :
  unlocked (mem w) ->
  exists w',
    dhtUpdater r now now' w = Returns tt w' /\
    live.run (map live.Stmt (live.statements r now now')) w = Returns [] w'.
Proof.
  intros Hu. unfold live.statements. destruct (err r) as [e|] eqn:He.
  - eexists. split; [apply dhtUpdater_failure, He|]. reflexivity.
  - eexists. split; [apply dhtUpdater_success; assumption|].
    cbn [map live.run live.exec]. unfold bind.
    rewrite (state_Set_unlocked _ _ Hu). reflexivity.
Qed.

Lemma live_handle_reads (q : live.request) (w : world) :
  unlocked (mem w) ->
  exists a w', live.handle q w = Returns a w' /\
    mem w' = mem w /\ metrics w' = metrics w /\ bus w' = bus w.
Proof.
  intros Hu. destruct q; unfold live.handle, bind.
  - destruct (serveHTTP_reads w Hu) as (h & ->). do 2 eexists.
    split; [reflexivity|]. auto.
  - destruct (serveJSON_reads w Hu) as (h & w1 & -> & ? & ? & ?).
    do 2 eexists. split; [reflexivity|]. auto.
  - do 2 eexists. split; [reflexivity|]. auto.
Qed.

Lemma live_exec_effect (s : live.stmt) (w : world) :
  unlocked (mem w) ->
  exists w', live.exec s w = Returns tt w' /\
    unlocked (mem w') /\
    (reading w', metrics w') = live.effect (reading w, metrics w) s /\
    bus w' = bus w.
Proof.
  intros Hu. destruct s; cbn [live.exec live.effect fst snd].
  - eexists. split; [reflexivity|]. auto.
  - rewrite (state_Set_unlocked _ _ Hu). eexists. split; [reflexivity|].
    repeat split; reflexivity.
  - eexists. split; [reflexivity|]. auto.
  - eexists. split; [reflexivity|]. auto.
  - eexists. split; [reflexivity|]. auto.
Qed.

(** Whatever the interleaving, store and gauges are what the poller's
    statements, in their order, leave; the requests change neither. *)
Lemma live_run_effect (l : list live.step) (w : world) :
  unlocked (mem w) ->
  exists ans w',
    live.run l w = Returns ans w' /\
    unlocked (mem w') /\
    (reading w', metrics w') =
      fold_left live.effect (live.poller l) (reading w, metrics w) /\
    bus w' = bus w /\
    length ans = length (live.requests l).
Proof.
  revert w. induction l as [|[s|q] l IH]; intros w Hu;
    cbn [live.run live.poller live.requests fold_left]; unfold bind.
  - exists [], w. auto.
  - destruct (live_exec_effect s w Hu) as (w1 & -> & Hu1 & He & Hb).
    destruct (IH w1 Hu1) as (ans & w2 & -> & Hu2 & Hf & Hb2 & Hl).
    exists ans, w2. split; [reflexivity|]. rewrite <- He.
    repeat split; auto; try apply Hu2. congruence.
  - destruct (live_handle_reads q w Hu) as (a & w1 & -> & Hm & Hg & Hb).
    destruct (IH w1) as (ans & w2 & -> & Hu2 & Hf & Hb2 & Hl);
      [rewrite Hm; exact Hu|].
    exists (a :: ans), w2. split; [reflexivity|].
    unfold reading in *. rewrite Hm, Hg in Hf.
    repeat split; auto; try apply Hu2; try congruence. simpl. lia.
Qed.

(** The statements of whole polls leave what the polls leave. *)
Lemma polls_effect ps (s : State) (g : gauges) :
  fold_left live.effect (live.polls ps) (s, g) = (polled ps s, gauged ps g).
Proof.
  revert s g. induction ps as [|[[r now] now'] ps IH]; intros s g;
    cbn [live.polls polled gauged]; [reflexivity|].
  rewrite fold_left_app. unfold live.statements.
  destruct (err r); cbn [fold_left live.effect fst snd tempGauge humidityGauge
                          lastUpdateGauge]; apply IH.
Qed.

(** X8.  The gauges against the store, with the requests falling anywhere,
    also between the statements of a poll.  Whenever the poller is between
    two polls, store and gauges are those of the last successful poll, so
    that the temperature and humidity gauges show the stored reading (or
    nothing has been polled yet).  Inside a poll they can differ: a
    request answered between [state.Set] and [tempGauge.Set] gets the new
    reading from the store while [/metrics] still shows the old gauges. *)
Theorem gauges_follow_store
    (ps : list (DHTxx * Time * Time)) (l : list live.step) (w : world) :
  unlocked (mem w) ->
  live.poller l = live.polls ps ->
  (exists ans w',
     live.run l w = Returns ans w' /\
     length ans = length (live.requests l) /\
     reading w' = polled ps (reading w) /\
     metrics w' = gauged ps (metrics w) /\
     (gauges_agree w \/ (reading w = zero /\ metrics w = metrics boot) ->
      gauges_agree w' \/ (reading w' = zero /\ metrics w' = metrics boot))) /\
  (forall r now now',
     err r = None -> tempGauge (metrics w) <> OfFloat32 (temperature r) ->
     exists w1,
       live.run [live.Stmt (live.StateSet
                   (mkState (temperature r) (humidity r) "" now));
                 live.Req live.ReqRoot; live.Req live.ReqMetrics] w =
         Returns [live.Page (mkHTTP 200 "text/html; charset=utf-8"
                    (BHtml (mkState (temperature r) (humidity r) "" now)));
                  live.Scrape (metrics w)] w1 /\
       live.statements r now now' =
         live.StateSet (mkState (temperature r) (humidity r) "" now) ::
         tail (live.statements r now now') /\
       ~ gauges_agree w1).
Proof.
  intros Hu Hp. split.
  - destruct (live_run_effect l w Hu) as (ans & w' & H & _ & Hf & _ & Hl).
    rewrite Hp, polls_effect in Hf. injection Hf as Hr Hg.
    exists ans, w'. split; [exact H|]. split; [exact Hl|].
    split; [exact Hr|]. split; [exact Hg|].
    unfold gauges_agree. rewrite Hr, Hg. apply polled_gauged_agree.
  - intros r now now' He Hne.
    eexists. split; [|split].
    + cbn [live.run live.exec live.handle]. unfold bind.
      rewrite (state_Set_unlocked _ _ Hu).
      unfold serveHTTP, bind. rewrite state_Get_unlocked by (split; reflexivity).
      reflexivity.
    + unfold live.statements. rewrite He. reflexivity.
    + unfold gauges_agree. cbn [metrics reading mem cur Temperature].
      intros [Ht _]. contradiction.
Qed.

(** One poll with a request before it, two inside it and one after it. *)
Lemma gauges_follow_store_witness :
  exists ans w',
    live.run
      [live.Req live.ReqApi;
       live.Stmt (live.StateSet (mkState 0x41AC0000 0x42200000 "" 60));
       live.Req live.ReqMetrics;
       live.Stmt (live.TempGaugeSet 0x41AC0000);
       live.Req live.ReqRoot;
       live.Stmt (live.HumidityGaugeSet 0x42200000);
       live.Stmt (live.LastUpdateGaugeSet (Unix 60));
       live.Req live.ReqMetrics] boot = Returns ans w' /\
    length ans = 4 /\
    reading w' = mkState 0x41AC0000 0x42200000 "" 60.
Proof.
  destruct (proj1 (gauges_follow_store
              [(mkDHT 0x41AC0000 0x42200000 0 None, 60%Z, 60%Z)]
              [live.Req live.ReqApi;
               live.Stmt (live.StateSet (mkState 0x41AC0000 0x42200000 "" 60));
               live.Req live.ReqMetrics;
               live.Stmt (live.TempGaugeSet 0x41AC0000);
               live.Req live.ReqRoot;
               live.Stmt (live.HumidityGaugeSet 0x42200000);
               live.Stmt (live.LastUpdateGaugeSet (Unix 60));
               live.Req live.ReqMetrics]
              boot (conj eq_refl eq_refl) eq_refl))
    as (ans & w' & H & Hl & Hr & _).
  exists ans, w'. split; [exact H|]. split; [exact Hl | exact Hr].
Defined.

(** X10.  A successful poll followed by a request to [/api]: when the
    sensor's values are finite and the clock is in the range JSON can
    carry, the answer is 200 with exactly the polled temperature and
    humidity, the empty IP and the poll's clock reading; when the sensor
    delivered a value that is not finite the answer is 500, the failure is
    logged, and the store keeps the polled reading. *)
Theorem poll_then_api (r : DHTxx) (now now' : Time) (w : world) :
  err r = None -> unlocked (mem w) ->
  (finite (temperature r) = true -> finite (humidity r) = true ->
   marshalable now = true ->
   exists w',
     serve [Poll r now now'; GetApi] w =
       Returns [mkHTTP 200 "application/json"
                  (BJson (JObject [("Temperature", JNumber (temperature r));
                                   ("Humidity", JNumber (humidity r));
                                   ("IP", JString "");
                                   ("LastSensorUpdate", JTime now)]))] w' /\
     logs w' = logs w) /\
  (finite (temperature r) && finite (humidity r) = false ->
   exists e w',
     serve [Poll r now now'; GetApi] w =
       Returns [mkHTTP 500 "text/plain; charset=utf-8" (BText e)] w' /\
     logs w' = logs w ++ [mkLog "Error encoding JSON: %v" [AErr e]] /\
     reading w' = mkState (temperature r) (humidity r) "" now).
Proof.
  intros He Hu.
  assert (Hs :
            serve [Poll r now now'; GetApi] w =
            match Encode (mkState (temperature r) (humidity r) "" now) with
            | inl j =>
                Returns [mkHTTP 200 "application/json" (BJson j)]
                  (mkWorld (mkStore (mkMu false 0)
                              (mkState (temperature r) (humidity r) "" now))
                     (logs w)
                     (mkGauges (OfFloat32 (temperature r))
                        (OfFloat32 (humidity r)) (OfInt64 (Unix now')))
                     (bus w))
            | inr e =>
                Returns [mkHTTP 500 "text/plain; charset=utf-8" (BText e)]
                  (mkWorld (mkStore (mkMu false 0)
                              (mkState (temperature r) (humidity r) "" now))
                     (logs w ++ [mkLog "Error encoding JSON: %v" [AErr e]])
                     (mkGauges (OfFloat32 (temperature r))
                        (OfFloat32 (humidity r)) (OfInt64 (Unix now')))
                     (bus w))
            end).
  { cbn [serve]. unfold bind.
    rewrite (dhtUpdater_success r now now' w He Hu).
    unfold serveJSON, bind. rewrite state_Get_unlocked by (split; reflexivity).
    unfold reading. cbn [mem cur].
    destruct (Encode (mkState (temperature r) (humidity r) "" now));
      reflexivity. }
  split.
  - intros Ht Hh Hm. rewrite Hs. unfold Encode.
    cbn [Temperature Humidity IP LastSensorUpdate].
    rewrite Ht, Hh, Hm. cbn [andb negb]. eexists. split; reflexivity.
  - intros Hf. rewrite Hs. unfold Encode.
    cbn [Temperature Humidity IP LastSensorUpdate].
    rewrite Hf. cbn [negb]. do 2 eexists. split; [reflexivity|].
    split; reflexivity.
Qed.

Lemma poll_then_api_witness :
  exists w',
    serve [Poll (mkDHT 0x41AC0000 0x42200000 0 None)
             (scenario.new_year_2024 + 60000000000)%Z
             (scenario.new_year_2024 + 60000000000)%Z; GetApi] boot =
      Returns [mkHTTP 200 "application/json"
                 (BJson (JObject
                    [("Temperature", JNumber 0x41AC0000);
                     ("Humidity", JNumber 0x42200000);
                     ("IP", JString "");
                     ("LastSensorUpdate",
                      JTime (scenario.new_year_2024 + 60000000000)%Z)]))] w' /\
    logs w' = logs boot.
Proof.
  apply (proj1 (poll_then_api (mkDHT 0x41AC0000 0x42200000 0 None)
                  (scenario.new_year_2024 + 60000000000)%Z
                  (scenario.new_year_2024 + 60000000000)%Z boot
                  eq_refl (conj eq_refl eq_refl))); reflexivity.
Defined.

End ServerMore.

(** ** The interface lookup of the LCD *)

Section GetIPFacts.
Import rt lcd_net.

Lemma scan_found (iface : string) (l : list Interface) (a : string) :
  scan iface l = (a, None) <->
  exists pre i more post,
    l = pre ++ i :: post /\ Name i = iface /\ Addrs i = (a :: more, None) /\
    Forall (fun j => Name j = iface -> Addrs j = ([], None)) pre.
Proof.
  split.
  - induction l as [|i l IH]; simpl; [discriminate|].
    destruct (String.eqb_spec (Name i) iface) as [E|E]; simpl.
    + destruct (Addrs i) as [[|a0 more] [e|]] eqn:Ea; try discriminate.
      * intros H. destruct (IH H) as (pre & i' & more & post & -> & ? & ? & ?).
        exists (i :: pre), i', more, post. repeat split; auto.
      * intros [= ->]. exists [], i, more, l. repeat split; auto.
    + intros H. destruct (IH H) as (pre & i' & more & post & -> & ? & ? & ?).
      exists (i :: pre), i', more, post. repeat split; auto.
      constructor; [contradiction | assumption].
  - intros (pre & i & more & post & -> & Hn & Ha & Hpre).
    induction Hpre as [|j pre Hj _ IH]; simpl.
    + destruct (String.eqb_spec (Name i) iface); [|contradiction]. simpl.
      rewrite Ha. reflexivity.
    + destruct (String.eqb_spec (Name j) iface) as [E|E]; simpl; [|exact IH].
      rewrite (Hj E). exact IH.
Qed.

Lemma scan_not_found (iface : string) (l : list Interface) :
  scan iface l = ("", Some (NotFound iface)) <->
  Forall (fun j => Name j = iface -> Addrs j = ([], None)) l.
Proof.
  split.
  - induction l as [|i l IH]; simpl; [constructor|].
    destruct (String.eqb_spec (Name i) iface) as [E|E]; simpl.
    + destruct (Addrs i) as [[|a0 more] [e|]] eqn:Ea; try discriminate.
      intros H. constructor; auto.
    + intros H. constructor; [contradiction | auto].
  - induction 1 as [|j l Hj _ IH]; simpl; [reflexivity|].
    destruct (String.eqb_spec (Name j) iface) as [E|E]; simpl; [|exact IH].
    rewrite (Hj E). exact IH.
Qed.

(** X11.  [getIP]: it returns an address exactly when, going through the
    interfaces in order, the first interface of the given name that has
    any address comes before any of that name whose [Addrs()] fails, and
    then it is that interface's first address; interfaces of the name
    that have no address are passed over.  It reports the name as not
    found exactly when every interface of that name has no address (in
    particular when there is none).  An error always comes with the empty
    string. *)
Theorem getIP_result (ifaces : list Interface) (iface : string) :
  (forall a,
     getIP (ifaces, None) iface = (a, None) <->
     exists pre i more post,
       ifaces = pre ++ i :: post /\ Name i = iface /\
       Addrs i = (a :: more, None) /\
       Forall (fun j => Name j = iface -> Addrs j = ([], None)) pre) /\
  (getIP (ifaces, None) iface = ("", Some (NotFound iface)) <->
   Forall (fun j => Name j = iface -> Addrs j = ([], None)) ifaces) /\
  (forall oe a e, getIP (ifaces, oe) iface = (a, Some e) -> a = "").
Proof.
  split; [|split].
  - intros a. apply scan_found.
  - apply scan_not_found.
  - intros oe a e. unfold getIP. simpl. destruct oe; [intros [= <- _]; reflexivity|].
    induction ifaces as [|i l IH]; simpl; [intros [= <- _]; reflexivity|].
    destruct (negb (Name i =? iface)%string); [exact IH|].
    destruct (Addrs i) as [[|a0 more] [e0|]].
    + intros [= <- _]. reflexivity.
    + exact IH.
    + intros [= <- _]. reflexivity.
    + discriminate.
Qed.

(** Two interfaces called [wlan0], the first without an address. *)
Example getIP_skips_addressless :
  getIP ([mkIf "lo" (["127.0.0.1/8"], None); mkIf "wlan0" ([], None);
          mkIf "wlan0" (["192.168.1.7/24"; "fe80::1/64"], None)], None)
        "wlan0" = ("192.168.1.7/24", None).
Proof. reflexivity. Qed.

End GetIPFacts.

(** ** The display updaters, further *)

Section DisplayMore.
Import state rt more.

Lemma lcd_body_bus (IPIface : string) (e : lcd.env) (now : Time) (w : world) :
  unlocked (mem w) ->
  exists w' shown,
    lcd.Updater_body IPIface (e, now) w = Returns tt w' /\
    mem w' = mem w /\ bus w' = bus w ++ shown /\
    Forall (fun b => is_show b = true) shown /\
    length shown = (if String.eqb IPIface "" then 3 else 4).
Proof.
  intros Hu. unfold lcd.Updater_body, bind.
  rewrite (state_Get_unlocked _ Hu), show_returns.
  destruct (String.eqb IPIface "").
  - unfold ret. rewrite !show_returns. simpl. do 2 eexists.
    split; [reflexivity|]. split; [reflexivity|].
    rewrite <- !app_assoc. split; [reflexivity|]. simpl.
    split; [repeat constructor | reflexivity].
  - destruct (lcd.getIP e IPIface) as [ip er]. rewrite !show_returns. simpl.
    do 2 eexists. split; [reflexivity|]. split; [reflexivity|].
    rewrite <- !app_assoc. split; [reflexivity|]. simpl.
    split; [repeat constructor | reflexivity].
Qed.

Lemma count_shows (p : buswrite -> bool) (shown : list buswrite) :
  (forall b, is_show b = true -> p b = false) ->
  Forall (fun b => is_show b = true) shown -> count p shown = 0.
Proof.
  intros Hp H. apply count_false. eapply Forall_impl; [exact H|]. exact Hp.
Qed.

Lemma lcd_loop_running (IPIface : string) (off : option error)
    (pre : list ((lcd.env * Time) * sync.chosen)) (w : world) :
  unlocked (mem w) -> Forall (fun x => snd x = sync.CaseTimer) pre ->
  exists w',
    lcd.Updater IPIface off pre w = Returns false w' /\
    mem w' = mem w /\ lcd.ticks w' = lcd.ticks w + length pre /\
    backlight_offs w' = backlight_offs w /\ closes w' = closes w.
Proof.
  unfold lcd.Updater. revert w.
  induction pre as [|[[e now] ch] pre IH]; intros w Hu HF; cbn [tick_loop].
  - exists w. simpl. repeat split; lia.
  - inversion HF as [|x l Hx HF']; subst. simpl in Hx. subst ch. unfold bind.
    destruct (lcd_body_bus IPIface e now w Hu) as (w1 & shown & H1 & Hm & Hb & Hs & _).
    destruct (lcd_body_returns IPIface e now w Hu) as (w1' & H1' & _ & Ht).
    rewrite H1 in H1'. injection H1' as <-. rewrite H1.
    destruct (IH w1) as (w2 & H2 & Hm2 & Ht2 & Ho2 & Hc2);
      [rewrite Hm; exact Hu | exact HF'|].
    exists w2. split; [exact H2|]. split; [congruence|].
    split; [simpl; lia|].
    unfold backlight_offs, closes in *. rewrite Hb, !count_app in *.
    rewrite (count_shows _ shown) in Ho2 by (auto; intros []; simpl; congruence).
    rewrite (count_shows _ shown) in Hc2 by (auto; intros []; simpl; congruence).
    split; lia.
Qed.

Lemma lcd_cleanup_effect (off : option error) (w : world) :
  lcd.cleanup off w =
    Returns tt
      (mkWorld (mem w)
         (logs w ++ match off with
                    | Some er =>
                        [mkLog "ERROR: Failed to turn off backlight: %v" [AErr er]]
                    | None => []
                    end)
         (metrics w) (bus w ++ [BacklightOff; CloseBus])).
Proof.
  unfold lcd.cleanup, bind, write_bus, log_Printf, ret.
  destruct off; simpl; rewrite ?app_nil_r, <- ?app_assoc; reflexivity.
Qed.

(** X12.  Cancellation of the LCD updater: the tick in progress is
    finished, then [cleanup] runs once: the backlight is switched off and
    the bus closed, in this order and as the last two things sent to the
    bus, each exactly once; a failure to switch the backlight off is
    logged as the last line and the bus is closed all the same.  The
    updater has then returned, whatever iterations were still to come,
    and the store is as it was. *)
Theorem lcd_Updater_cancelled (IPIface : string) (off : option error)
    (pre post : list ((lcd.env * Time) * sync.chosen))
    (i : lcd.env * Time) (w : world) :
  unlocked (mem w) -> Forall (fun x => snd x = sync.CaseTimer) pre ->
  exists w',
    lcd.Updater IPIface off (pre ++ (i, sync.CaseDone) :: post) w =
      Returns true w' /\
    mem w' = mem w /\
    lcd.ticks w' = lcd.ticks w + length pre + 1 /\
    backlight_offs w' = backlight_offs w + 1 /\
    closes w' = closes w + 1 /\
    (exists b, bus w' = b ++ [BacklightOff; CloseBus]) /\
    (forall er, off = Some er ->
       exists l, logs w' =
         l ++ [mkLog "ERROR: Failed to turn off backlight: %v" [AErr er]]).
Proof.
  intros Hu HF.
  destruct (lcd_loop_running IPIface off pre w Hu HF)
    as (w1 & H1 & Hm1 & Ht1 & Ho1 & Hc1).
  unfold lcd.Updater in *. rewrite (tick_loop_app _ _ _ _ _ _ H1).
  cbn [tick_loop]. unfold bind. destruct i as [e now].
  assert (Hu1 : unlocked (mem w1)) by (rewrite Hm1; exact Hu).
  destruct (lcd_body_bus IPIface e now w1 Hu1)
    as (w2 & shown & H2 & Hm2 & Hb2 & Hs & _).
  destruct (lcd_body_returns IPIface e now w1 Hu1) as (w2' & H2' & _ & Ht2).
  rewrite H2 in H2'. injection H2' as <-. rewrite H2, lcd_cleanup_effect.
  assert (Hcount : forall p : buswrite -> bool,
            (forall b, is_show b = true -> p b = false) ->
            count p (bus w2) = count p (bus w1)).
  { intros p Hp. rewrite Hb2, count_app, (count_shows p shown Hp Hs). lia. }
  eexists. split; [reflexivity|]. cbn [mem logs bus].
  split; [congruence|].
  unfold lcd.ticks, backlight_offs, closes in *. cbn [bus].
  rewrite !count_app.
  split; [unfold count at 2; simpl; lia|].
  split; [rewrite Hcount by (intros []; simpl; congruence);
          unfold count at 2; simpl; lia|].
  split; [rewrite Hcount by (intros []; simpl; congruence);
          unfold count at 2; simpl; lia|].
  split; [exists (bus w2); reflexivity|].
  intros er ->. eexists. reflexivity.
Qed.

Lemma lcd_Updater_cancelled_witness :
  exists w',
    lcd.Updater "wlan0" (Some "write /dev/i2c-1: remote I/O error")
      [((scenario.lcd_broken, scenario.new_year_2024), sync.CaseTimer);
       ((scenario.lcd_broken, scenario.new_year_2024), sync.CaseDone);
       ((scenario.lcd_broken, scenario.new_year_2024), sync.CaseTimer)]
      boot = Returns true w' /\
    lcd.ticks w' = 2 /\ closes w' = 1.
Proof.
  destruct (lcd_Updater_cancelled "wlan0"
              (Some "write /dev/i2c-1: remote I/O error")
              [((scenario.lcd_broken, scenario.new_year_2024), sync.CaseTimer)]
              [((scenario.lcd_broken, scenario.new_year_2024), sync.CaseTimer)]
              (scenario.lcd_broken, scenario.new_year_2024) boot
              (conj eq_refl eq_refl))
    as (w' & H & _ & Ht & _ & Hc & _).
  { repeat constructor. }
  exists w'. split; [exact H|]. split; [exact Ht | exact Hc].
Defined.

(** Without a device [display] only logs its warning. *)
Lemma display_no_device (h : pioled.hw) (i : option error * Time) (w : world) :
  pioled.dev h = false ->
  pioled.display h i w =
    Returns tt (mkWorld (mem w) (logs w ++ [no_device]) (metrics w) (bus w)).
Proof. intros Hd. destruct i as [draw now]. unfold pioled.display. rewrite Hd. reflexivity. Qed.

Lemma pioled_loop_no_device (C : bool) (h : pioled.hw) (clear : option error)
    (its : list ((option error * Time) * sync.chosen)) (w : world) :
  pioled.dev h = false -> Forall (fun x => snd x = sync.CaseTimer) its ->
  exists w',
    pioled.Updater C h clear its w = Returns false w' /\
    logs w' = logs w ++ replicate (length its) no_device /\
    bus w' = bus w /\ mem w' = mem w /\ metrics w' = metrics w.
Proof.
  intros Hd. unfold pioled.Updater. revert w.
  induction its as [|[i ch] its IH]; intros w HF; cbn [tick_loop].
  - exists w. simpl. rewrite app_nil_r. auto.
  - inversion HF as [|x l Hx HF']; subst. simpl in Hx. subst ch. unfold bind.
    rewrite (display_no_device h i w Hd).
    destruct (IH (mkWorld (mem w) (logs w ++ [no_device]) (metrics w) (bus w)) HF')
      as (w' & H & Hl & Hb & Hm & Hg).
    exists w'. split; [exact H|]. simpl in *.
    rewrite Hl, <- app_assoc. auto.
Qed.

(** X13.  [Initialize] and what follows when its error is not acted on
    (the [main]s that start [pioled.Updater] log it or drop it).
    [Initialize] returns no error exactly when it leaves both the device
    and the bus set.  After a failed [Initialize] the device is nil: every
    tick of the updater only logs a warning, draws nothing and leaves the
    store alone, and at the cancellation [cleanup], asked to clear the
    display, dereferences the nil device and panics. *)
Theorem pioled_after_Initialize (e : pioled_init.env) (h : pioled.hw)
    (r : option pioled_init.init_error) (clear : option error) :
  pioled_init.Initialize e pioled_init.unset = (h, r) ->
  (r = None <-> h = pioled.mkHw true true) /\
  (r <> None ->
   pioled.dev h = false /\
   (forall C its w, Forall (fun x => snd x = sync.CaseTimer) its ->
      exists w',
        pioled.Updater C h clear its w = Returns false w' /\
        logs w' = logs w ++ replicate (length its) no_device /\
        bus w' = bus w /\ mem w' = mem w) /\
   (forall pre i post w, Forall (fun x => snd x = sync.CaseTimer) pre ->
      exists w',
        pioled.Updater true h clear (pre ++ (i, sync.CaseDone) :: post) w =
          Panics nil_dereference w' /\
        bus w' = bus w /\ mem w' = mem w)).
Proof.
  intros Hi.
  assert (Hr : (r = None <-> h = pioled.mkHw true true) /\
               (r <> None -> pioled.dev h = false)).
  { unfold pioled_init.Initialize, pioled_init.unset in Hi.
    destruct (pioled_init.host_Init e), (pioled_init.i2creg_Open e),
      (pioled_init.ssd1306_NewI2C e); injection Hi as <- <-; simpl;
      (split; [split; intros H; try discriminate H; reflexivity|]);
      intros H; try reflexivity; contradiction. }
  destruct Hr as [Hr Hd]. split; [exact Hr|]. intros Hne.
  specialize (Hd Hne). split; [exact Hd|]. split.
  - intros C its w HF.
    destruct (pioled_loop_no_device C h clear its w Hd HF)
      as (w' & H & Hl & Hb & Hm & _).
    exists w'. auto.
  - intros pre i post w HF.
    destruct (pioled_loop_no_device true h clear pre w Hd HF)
      as (w1 & H1 & Hl & Hb & Hm & _).
    unfold pioled.Updater in *. rewrite (tick_loop_app _ _ _ _ _ _ H1).
    cbn [tick_loop]. unfold bind. rewrite (display_no_device h i w1 Hd).
    unfold pioled.cleanup, bind. rewrite Hd. unfold panic.
    eexists. split; [reflexivity|]. simpl. auto.
Qed.

Lemma pioled_after_Initialize_witness :
  exists w',
    pioled.Updater true (pioled.mkHw false true) None
      [((None, scenario.new_year_2024), sync.CaseTimer);
       ((None, scenario.new_year_2024), sync.CaseDone)] boot =
      Panics nil_dereference w' /\
    bus w' = [] /\ mem w' = init.
Proof.
  refine (proj2 (proj2 (proj2 (pioled_after_Initialize
            (pioled_init.mkEnv None None (Some "ssd1306: no device"))
            (pioled.mkHw false true)
            (Some (pioled_init.NewSSD1306 "ssd1306: no device")) None
            eq_refl) _))
          [((None, scenario.new_year_2024), sync.CaseTimer)]
          (None, scenario.new_year_2024) [] boot _).
  - discriminate.
  - repeat constructor.
Defined.

Lemma failing_polls_keep
    (fails : list (server.DHTxx * Time * Time * sync.chosen)) (w : world) :
  Forall (fun i => server.err (fst (fst (fst i))) <> None /\
                   snd i = sync.CaseTimer) fails ->
  exists w',
    server.dhtUpdater_loop fails w = Returns false w' /\
    mem w' = mem w /\ metrics w' = metrics w /\ bus w' = bus w.
Proof.
  unfold server.dhtUpdater_loop. revert w.
  induction fails as [|[[[r now] now'] ch] fails IH]; intros w HF;
    cbn [tick_loop].
  - exists w. auto.
  - inversion HF as [|x l [He Hc] HF']; subst. simpl in He, Hc. subst ch.
    unfold bind. cbn [fst snd].
    destruct (server.err r) as [er|] eqn:E; [|contradiction].
    rewrite (dhtUpdater_failure r now now' er w E).
    destruct (IH (mkWorld (mem w)
                    (logs w ++ [mkLog "Failed to read DHT11: %v" [AErr er]])
                    (metrics w) (bus w)) HF') as (w' & H & Hm & Hg & Hb).
    exists w'. auto.
Qed.

(** X14.  A reading is shown for as long as no newer one replaces it, and
    flagged when it is old: after a successful poll at [now0] (not the
    zero instant) and any number of failed polls, the PiOLED frame
    rendered at [now] carries the temperature and humidity of that poll,
    with [STALE!] appended to the first line exactly when [now] is more
    than [StaleTime] (three minutes) after [now0]; rendering leaves the
    store alone. *)
Theorem stale_reading_still_shown
    (r : server.DHTxx) (now0 now0' now : Time)
    (fails : list (server.DHTxx * Time * Time * sync.chosen)) (w : world) :
  server.err r = None -> now0 <> 0%Z -> unlocked (mem w) ->
  Forall (fun i => server.err (fst (fst (fst i))) <> None /\
                   snd i = sync.CaseTimer) fails ->
  exists w1 w2,
    server.dhtUpdater_loop ((r, now0, now0', sync.CaseTimer) :: fails) w =
      Returns false w1 /\
    pioled.render now w1 =
      Returns
        ([if (pioled.StaleTime <? now - now0)%Z
          then Append (Sprintf "Temp: %.0fC" [AFloat (server.temperature r)])
                      " STALE!"
          else Sprintf "Temp: %.0fC" [AFloat (server.temperature r)];
          Sprintf "Humid: %.0f%%" [AFloat (server.humidity r)]],
         Format "Mon Jan 2 15:04:05" now) w2 /\
    mem w2 = mem w1.
Proof.
  intros He Hn Hu HF.
  unfold server.dhtUpdater_loop. cbn [tick_loop]. unfold bind. cbn [fst snd].
  rewrite (dhtUpdater_success r now0 now0' w He Hu).
  destruct (failing_polls_keep fails
              (mkWorld (mkStore (mkMu false 0)
                          (mkState (server.temperature r) (server.humidity r)
                                   "" now0))
                 (logs w)
                 (mkGauges (OfFloat32 (server.temperature r))
                    (OfFloat32 (server.humidity r))
                    (OfInt64 (server.Unix now0')))
                 (bus w)) HF) as (w1 & H1 & Hm & _).
  unfold server.dhtUpdater_loop in H1. rewrite H1. cbn [mem] in Hm.
  assert (Hu1 : unlocked (mem w1)) by (rewrite Hm; split; reflexivity).
  exists w1, w1. split; [reflexivity|].
  unfold pioled.render, bind. rewrite (state_Get_unlocked _ Hu1).
  unfold reading. rewrite Hm. simpl. unfold IsZero.
  destruct (Z.eqb_spec now0 0); [contradiction|]. split; reflexivity.
Qed.

Lemma stale_reading_still_shown_witness :
  exists w1 w2,
    server.dhtUpdater_loop
      [(server.mkDHT 0x41AC0000 0x42200000 0 None, 60%Z, 60%Z, sync.CaseTimer);
       (server.mkDHT (-1) (-1) 10 (Some "failed to read DHT11"),
        120000000000%Z, 120000000000%Z, sync.CaseTimer)] boot =
      Returns false w1 /\
    pioled.render 200000000000 w1 =
      Returns ([Append (Sprintf "Temp: %.0fC" [AFloat 0x41AC0000]) " STALE!";
                Sprintf "Humid: %.0f%%" [AFloat 0x42200000]],
               Format "Mon Jan 2 15:04:05" 200000000000) w2.
Proof.
  destruct (stale_reading_still_shown
              (server.mkDHT 0x41AC0000 0x42200000 0 None) 60 60 200000000000
              [(server.mkDHT (-1) (-1) 10 (Some "failed to read DHT11"),
                120000000000%Z, 120000000000%Z, sync.CaseTimer)] boot
              eq_refl ltac:(discriminate) (conj eq_refl eq_refl))
    as (w1 & w2 & H1 & H2 & _).
  { repeat constructor. discriminate. }
  exists w1, w2. split; [exact H1 | exact H2].
Defined.

(** With a device, a frame that is drawn without error. *)
Lemma display_draws (h : pioled.hw) (now : Time) (w : world) :
  pioled.dev h = true -> unlocked (mem w) ->
  exists lines clock,
    pioled.display h (None, now) w =
      Returns tt (mkWorld (mem w) (logs w) (metrics w)
                    (bus w ++ [DrawFrame lines clock])).
Proof.
  intros Hd Hu. unfold pioled.display, pioled.render, bind. rewrite Hd.
  cbn [negb]. rewrite (state_Get_unlocked _ Hu).
  unfold ret, write_bus. cbn [fst snd]. do 2 eexists. reflexivity.
Qed.

Lemma pioled_cleanup_effect (C : bool) (h : pioled.hw) (clear : option error)
    (w : world) :
  pioled.dev h = true -> pioled.busCloser h = true ->
  pioled.cleanup C h clear w =
    Returns tt
      (mkWorld (mem w)
         (logs w ++ match C, clear with
                    | true, Some er =>
                        [mkLog "ERROR: Failed to clear display: %v" [AErr er]]
                    | _, _ => []
                    end)
         (metrics w)
         (bus w ++ (if C then [DrawBlank; CloseBus] else [CloseBus]))).
Proof.
  intros Hd Hb. unfold pioled.cleanup, bind, write_bus, log_Printf, ret.
  rewrite Hd, Hb. destruct C, clear; cbn [mem logs metrics bus];
    rewrite ?app_nil_r, <- ?app_assoc; reflexivity.
Qed.

Lemma pioled_loop_running (C : bool) (h : pioled.hw) (clear : option error)
    (pre : list ((option error * Time) * sync.chosen)) (w : world) :
  pioled.dev h = true -> unlocked (mem w) ->
  Forall (fun x => fst (fst x) = None /\ snd x = sync.CaseTimer) pre ->
  exists w',
    pioled.Updater C h clear pre w = Returns false w' /\
    mem w' = mem w /\ logs w' = logs w /\
    pioled.frames w' = pioled.frames w + length pre /\
    closes w' = closes w.
Proof.
  intros Hd. unfold pioled.Updater. revert w.
  induction pre as [|[[draw now] ch] pre IH]; intros w Hu HF; cbn [tick_loop].
  - exists w. cbn [length]. repeat split; lia.
  - inversion HF as [|x l [Hx1 Hx2] HF']; subst. cbn [fst snd] in Hx1, Hx2.
    subst. unfold bind.
    destruct (display_draws h now w Hd Hu) as (lines & clock & ->).
    destruct (IH (mkWorld (mem w) (logs w) (metrics w)
                    (bus w ++ [DrawFrame lines clock])) Hu HF')
      as (w' & H & Hm & Hl & Hf & Hc).
    exists w'. split; [exact H|]. split; [exact Hm|]. split; [exact Hl|].
    unfold pioled.frames, closes in *. cbn [bus length] in *.
    rewrite count_app in Hf, Hc.
    change (count (fun b => match b with DrawFrame _ _ => true | _ => false end)
                  [DrawFrame lines clock]) with 1 in Hf.
    change (count (fun b => match b with CloseBus => true | _ => false end)
                  [DrawFrame lines clock]) with 0 in Hc.
    split; lia.
Qed.

(** X18.  Cancellation of the PiOLED updater with its device attached and
    every frame drawn: the frame in progress is drawn, then [cleanup]
    runs once: when [ClearDisplay] is set an empty image is drawn (a
    failure of that is only logged), and the bus is closed, exactly once
    and as the last thing sent to it.  The updater has then returned and
    the store is as it was. *)
Theorem pioled_Updater_cancelled (C : bool) (h : pioled.hw)
    (clear : option error)
    (pre post : list ((option error * Time) * sync.chosen))
    (now : Time) (w : world) :
  pioled.dev h = true -> pioled.busCloser h = true -> unlocked (mem w) ->
  Forall (fun x => fst (fst x) = None /\ snd x = sync.CaseTimer) pre ->
  exists w',
    pioled.Updater C h clear (pre ++ ((None, now), sync.CaseDone) :: post) w =
      Returns true w' /\
    mem w' = mem w /\
    pioled.frames w' = pioled.frames w + length pre + 1 /\
    closes w' = closes w + 1 /\
    (exists b, bus w' = b ++ (if C then [DrawBlank; CloseBus] else [CloseBus])) /\
    logs w' = logs w ++
      match C, clear with
      | true, Some er => [mkLog "ERROR: Failed to clear display: %v" [AErr er]]
      | _, _ => []
      end.
Proof.
  intros Hd Hb Hu HF.
  destruct (pioled_loop_running C h clear pre w Hd Hu HF)
    as (w1 & H1 & Hm1 & Hl1 & Hf1 & Hc1).
  unfold pioled.Updater in *. rewrite (tick_loop_app _ _ _ _ _ _ H1).
  cbn [tick_loop]. unfold bind.
  assert (Hu1 : unlocked (mem w1)) by (rewrite Hm1; exact Hu).
  destruct (display_draws h now w1 Hd Hu1) as (lines & clock & ->).
  rewrite (pioled_cleanup_effect C h clear _ Hd Hb).
  eexists. split; [reflexivity|]. cbn [mem logs bus].
  split; [exact Hm1|].
  unfold pioled.frames, closes in *. cbn [bus]. rewrite !count_app.
  change (count (fun b => match b with DrawFrame _ _ => true | _ => false end)
                [DrawFrame lines clock]) with 1.
  change (count (fun b => match b with CloseBus => true | _ => false end)
                [DrawFrame lines clock]) with 0.
  split; [destruct C; unfold count at 2; simpl; lia|].
  split; [destruct C; unfold count at 2; simpl; lia|].
  split; [eexists; reflexivity | congruence].
Qed.

Lemma pioled_Updater_cancelled_witness :
  exists w',
    pioled.Updater true (pioled.mkHw true true)
      (Some "write /dev/i2c-1: remote I/O error")
      [((None, scenario.new_year_2024), sync.CaseTimer);
       ((None, scenario.new_year_2024), sync.CaseDone)] boot =
      Returns true w' /\
    pioled.frames w' = 2 /\ closes w' = 1.
Proof.
  destruct (pioled_Updater_cancelled true (pioled.mkHw true true)
              (Some "write /dev/i2c-1: remote I/O error")
              [((None, scenario.new_year_2024), sync.CaseTimer)] []
              scenario.new_year_2024 boot eq_refl eq_refl
              (conj eq_refl eq_refl))
    as (w' & H & _ & Hf & Hc & _).
  { repeat constructor. }
  exists w'. split; [exact H|]. split; [exact Hf | exact Hc].
Defined.

End DisplayMore.

(** ** Shutdown, further *)

Section ShutdownMore.
Import lifecycle inv more.






End ShutdownMore.

(** ** Shutdown when an activity ends the process *)

Section CrashFacts.
Import lifecycle inv.

Lemma crash_boot_sound (acts : list activity) : crash.sound acts (crash.boot acts).
Proof.
  destruct (boot_invariants WaitGroupMain acts) as (Hc & Ha & Hb).
  destruct (Hb eq_refl) as [Hn _].
  constructor; cbn [crash.boot crash.base crash.panicked crash.status].
  - exact Hn.
  - discriminate.
  - exact Ha.
  - intros k g Hk. split; [intros []|]. intros _.
    exact (proj1 (Forall_lookup _ _) Hc k g Hk).
Qed.

(** A step of [lifecycle.fire] moves one goroutine that has not panicked. *)
Lemma crash_run_sound (acts : list activity) (e : event) (x : crash.proc)
    (p' : proc) :
  crash.sound acts x -> fire WaitGroupMain e (crash.base x) = Some p' ->
  crash.sound acts (crash.mkProc p' (crash.panicked x) None).
Proof.
  intros [Hc Hw Ha Hg] H.
  constructor; cbn [crash.base crash.panicked crash.status].
  - exact (fire_counted _ _ _ _ Hc H).
  - intros Hx. split; [exact (fire_waited _ _ _ H Hx) | reflexivity].
  - rewrite (fire_acts _ _ _ _ H). exact Ha.
  - apply fire_cases in H as [_ H].
    destruct H as [(-> & _)|[(-> & _)|[(-> & _)|[H|H]]]]; try exact Hg.
    + destruct H as (j & a & n & Ej & _ & -> & _).
      destruct (Hg j _ Ej) as [Hp Hn].
      intros k g Hk. destruct (decide (k = j)) as [->|Hne].
      * rewrite list_lookup_insert_eq in Hk by (eapply lookup_lt_Some, Ej).
        injection Hk as <-. split.
        -- intros Hin. destruct (Hp Hin) as [Hpc _]. discriminate Hpc.
        -- intros Hnin. specialize (Hn Hnin). simpl in *. rewrite Hn.
           destruct (has_cleanup a); reflexivity.
      * rewrite list_lookup_insert_ne in Hk by auto. exact (Hg k g Hk).
    + destruct H as (j & a & n & _ & Ej & -> & _).
      destruct (Hg j _ Ej) as [Hp Hn].
      intros k g Hk. destruct (decide (k = j)) as [->|Hne].
      * rewrite list_lookup_insert_eq in Hk by (eapply lookup_lt_Some, Ej).
        injection Hk as <-. split.
        -- intros Hin. destruct (Hp Hin) as [Hpc _]. discriminate Hpc.
        -- intros Hnin. exact (Hn Hnin).
      * rewrite list_lookup_insert_ne in Hk by auto. exact (Hg k g Hk).
Qed.

Lemma crash_fire_sound (acts : list activity) (e : crash.event)
    (x x' : crash.proc) :
  crash.sound acts x -> crash.fire e x = Some x' -> crash.sound acts x'.
Proof.
  intros Hs H. unfold crash.fire in H.
  destruct (crash.status x) eqn:Est; [discriminate|].
  assert (Hm : main (crash.base x) <> Exited ->
          match e with
          | crash.Run e' =>
              match fire WaitGroupMain e' (crash.base x) with
              | Some p' => Some (crash.mkProc p' (crash.panicked x) None)
              | None => None
              end
          | crash.Panic k =>
              match gs (crash.base x) !! k with
              | Some (mkG a InLoop n) =>
                  Some (crash.mkProc
                          (mkProc (interrupted (crash.base x)) (done (crash.base x))
                             (main (crash.base x)) (pred (wg (crash.base x)))
                             (<[k := mkG a Finished n]> (gs (crash.base x))))
                          (k :: crash.panicked x) None)
              | _ => None
              end
          | crash.Fatal k =>
              match gs (crash.base x) !! k with
              | Some (mkG a InLoop n) =>
                  Some (crash.mkProc (crash.base x) (crash.panicked x) (Some 1%Z))
              | _ => None
              end
          | crash.Die =>
              match crash.panicked x with
              | [] => None
              | _ :: _ =>
                  Some (crash.mkProc (crash.base x) (crash.panicked x) (Some 2%Z))
              end
          end = Some x' -> crash.sound acts x').
  { clear H. intros Hne H. destruct e as [e'|k|k|].
    - destruct (fire WaitGroupMain e' (crash.base x)) as [p'|] eqn:Ef;
        [|discriminate].
      injection H as <-. exact (crash_run_sound acts e' x p' Hs Ef).
    - destruct (gs (crash.base x) !! k) as [[a [] n]|] eqn:Ek; try discriminate.
      injection H as <-. destruct Hs as [Hc Hw Ha Hg].
      destruct (Hg k _ Ek) as [Hp Hn].
      assert (Hnin : ~ In k (crash.panicked x)).
      { intros Hin. destruct (Hp Hin) as [Hpc _]. discriminate Hpc. }
      constructor; cbn [crash.base crash.panicked crash.status wg gs main].
      + pose proof (count_insert unfinished _ _ _ (mkG a Finished n) Ek) as Hi.
        simpl in Hi. lia.
      + intros Hx. contradiction.
      + change (act <$> <[k:=mkG a Finished n]> (gs (crash.base x)) = acts).
        rewrite list_fmap_insert, list_insert_id; [exact Ha|].
        rewrite list_lookup_fmap, Ek. reflexivity.
      + intros j g Hj. destruct (decide (j = k)) as [->|Hne'].
        * rewrite list_lookup_insert_eq in Hj by (eapply lookup_lt_Some, Ek).
          injection Hj as <-. split.
          -- intros _. split; [reflexivity|]. exact (Hn Hnin).
          -- intros Hc'. exfalso. apply Hc'. left. reflexivity.
        * rewrite list_lookup_insert_ne in Hj by auto.
          destruct (Hg j g Hj) as [Hp' Hn']. split.
          -- intros [Hk|Hin]; [congruence | exact (Hp' Hin)].
          -- intros Hc'. apply Hn'. intros Hin. apply Hc'. right. exact Hin.
    - destruct (gs (crash.base x) !! k) as [[a [] n]|] eqn:Ek; try discriminate.
      injection H as <-. destruct Hs as [Hc Hw Ha Hg].
      constructor; cbn [crash.base crash.panicked crash.status]; auto.
      intros Hx. contradiction.
    - destruct (crash.panicked x) as [|k0 l0] eqn:Ep; [discriminate|].
      injection H as <-. destruct Hs as [Hc Hw Ha Hg].
      constructor; cbn [crash.base crash.panicked crash.status]; auto.
      + intros Hx. contradiction.
      + rewrite <- Ep. exact Hg. }
  destruct (main (crash.base x)) eqn:Em; [| |discriminate];
    apply Hm; [discriminate | exact H | discriminate | exact H].
Qed.

Lemma crash_fire_all_sound (acts : list activity) (es : list crash.event)
    (x x' : crash.proc) :
  crash.sound acts x -> crash.fire_all es x = Some x' -> crash.sound acts x'.
Proof.
  revert x. induction es as [|e es IH]; intros x Hs; simpl.
  - intros [= <-]. exact Hs.
  - destruct (crash.fire e x) as [x1|] eqn:E; [|discriminate].
    eauto using crash_fire_sound.
Qed.

(** X16.  The [main]s that start every activity through [waitGroupGo] and
    end with [wg.Wait()], with the ways an activity can end the process:
    however the signal, [main], the goroutines, their panics and
    [log.Fatal] calls interleave, when [main] returns from [wg.Wait()] the
    process has not been ended from inside, and every activity has run
    its deferred [wg.Done()]: it has seen the cancellation and returned,
    having run its cleanup exactly once if it has one and never
    otherwise, or it has panicked, and then without completing a cleanup.
    When no activity has panicked all of them are through. *)
Theorem Wait_returns_after_every_Done
    (acts : list activity) (es : list crash.event) (x : crash.proc) :
  crash.fire_all es (crash.boot acts) = Some x ->
  main (crash.base x) = Exited ->
  crash.status x = None /\
  map act (gs (crash.base x)) = acts /\
  (forall k g, gs (crash.base x) !! k = Some g ->
     pc g = Finished /\
     (~ In k (crash.panicked x) ->
        cleanups g = if has_cleanup (act g) then 1 else 0) /\
     (In k (crash.panicked x) -> cleanups g = 0)) /\
  (crash.panicked x = [] -> Forall through (gs (crash.base x))).
Proof.
  intros H Hx.
  destruct (crash_fire_all_sound acts es _ x (crash_boot_sound acts) H)
    as [Hc Hw Ha Hg].
  destruct (Hw Hx) as [Hz Hst].
  rewrite Hz in Hc. symmetry in Hc. apply count_none in Hc.
  assert (Hfin : forall k g, gs (crash.base x) !! k = Some g -> pc g = Finished).
  { intros k g Hk. pose proof (proj1 (Forall_lookup _ _) Hc k g Hk) as Hu.
    unfold unfinished in Hu. destruct (pc g); try discriminate. reflexivity. }
  split; [exact Hst|]. split; [exact Ha|]. split.
  - intros k g Hk. pose proof (Hfin k g Hk) as Hpc.
    destruct (Hg k g Hk) as [Hp Hn]. split; [exact Hpc|]. split.
    + intros Hnin. specialize (Hn Hnin). rewrite Hpc in Hn. exact Hn.
    + intros Hin. exact (proj2 (Hp Hin)).
  - intros Hnone. apply Forall_lookup. intros k g Hk.
    destruct (Hg k g Hk) as [_ Hn]. pose proof (Hfin k g Hk) as Hpc.
    split; [exact Hpc|].
    assert (Hnin : ~ In k (crash.panicked x)) by (rewrite Hnone; intros []).
    specialize (Hn Hnin). rewrite Hpc in Hn. exact Hn.
Qed.

(** [fetchState] panics when the PiOLED updater is through and [main]
    waits: its deferred [wg.Done()] lets [main] return. *)
Lemma Wait_returns_after_every_Done_witness :
  @None Z = None /\
  map act [mkG FetchState Finished 0; mkG PioledUpdater Finished 1] =
    [FetchState; PioledUpdater] /\
  (forall k g,
     [mkG FetchState Finished 0; mkG PioledUpdater Finished 1] !! k = Some g ->
     pc g = Finished /\
     (~ In k [0] -> cleanups g = if has_cleanup (act g) then 1 else 0) /\
     (In k [0] -> cleanups g = 0)) /\
  ([0] = [] ->
   Forall through [mkG FetchState Finished 0; mkG PioledUpdater Finished 1]).
Proof.
  exact (Wait_returns_after_every_Done [FetchState; PioledUpdater]
           [crash.Run Signal; crash.Run Main; crash.Run (SeeDone 1);
            crash.Run (WgDone 1); crash.Panic 0; crash.Run Main]
           (crash.mkProc
              (mkProc false true Exited 0
                 [mkG FetchState Finished 0; mkG PioledUpdater Finished 1])
              [0] None)
           eq_refl eq_refl).
Defined.

(** The PiOLED updater panics in its cleanup (no device) as the last
    activity: [main] can return before the runtime ends the process, the
    cleanup not completed. *)
Example cleanup_panic_lets_main_return :
  crash.fire_all
    [crash.Run Signal; crash.Run Main; crash.Run (SeeDone 0);
     crash.Run (WgDone 0); crash.Panic 1; crash.Run Main]
    (crash.boot [DhtUpdater; PioledUpdater]) =
  Some (crash.mkProc
          (mkProc false true Exited 0
             [mkG DhtUpdater Finished 0; mkG PioledUpdater Finished 0])
          [1] None).
Proof. reflexivity. Qed.

(** [pioled.display] calls [log.Fatal] while the LCD updater is in its
    loop: the process is gone, no cleanup run, and nothing runs after. *)
Example fatal_ends_without_cleanup :
  crash.fire_all [crash.Run (Tick 0); crash.Fatal 1]
    (crash.boot [LcdUpdater; PioledUpdater]) =
  Some (crash.mkProc
          (mkProc false false Selecting 2
             [mkG LcdUpdater InLoop 0; mkG PioledUpdater InLoop 0])
          [] (Some 1%Z)) /\
  forall e,
    crash.fire e
      (crash.mkProc
         (mkProc false false Selecting 2
            [mkG LcdUpdater InLoop 0; mkG PioledUpdater InLoop 0])
         [] (Some 1%Z)) = None.
Proof. split; [reflexivity|]. intros e. reflexivity. Qed.

End CrashFacts.

